(** * Pair programming rooms: the React client (frontend/src/App.jsx) and the
    room session core it talks to.

    The client is embedded from its source: the nine [useState] cells, the two
    refs, the browser's timer queue, and one function per handler, each
    returning the new state and the effects it performed (socket emits, the
    autocomplete POST, clipboard and console writes).

    The server (session registry, dispatcher, suggestion engine) is not part
    of the sources at hand; it is modelled from the specification, in module
    [Server], and every definition there says so. *)

From stdpp Require Import gmap strings list.

Local Open Scope nat_scope.
Set Warnings "-register-all".

(** ** JavaScript values

    Payloads of socket events and bodies of HTTP requests and responses, as
    the client sees them after [JSON.parse]. An object is an association list
    whose first binding of a key is the one a property read returns. *)

Inductive jsval : Type :=
| JUndefined
| JNull
| JBool (b : bool)
| JNum (n : nat)
| JStr (s : string)
| JArr (l : list jsval)
| JObj (o : list (string * jsval)).

Definition is_empty_string (s : string) : bool :=
  match s with EmptyString => true | String _ _ => false end.

(** ToBoolean: what [if (v)] and [v && ...] test. *)
Definition truthy (v : jsval) : bool :=
  match v with
  | JUndefined | JNull => false
  | JBool b => b
  | JNum n => negb (n =? 0)
  | JStr s => negb (is_empty_string s)
  | JArr _ | JObj _ => true
  end.

Fixpoint assoc (k : string) (o : list (string * jsval)) : option jsval :=
  match o with
  | [] => None
  | (k', v) :: o' => if String.eqb k k' then Some v else assoc k o'
  end.

(** [v.k] for a key that no primitive or array carries (such as
    [suggestion]): [None] is the TypeError that reading a property of [null]
    or [undefined] throws. *)
Definition get_prop (v : jsval) (k : string) : option jsval :=
  match v with
  | JUndefined | JNull => None
  | JObj o => Some (default JUndefined (assoc k o))
  | _ => Some JUndefined
  end.

Definition keys (v : jsval) : list string :=
  match v with JObj o => o.*1 | _ => [] end.

(** [s.slice(0, 8)], strings taken as sequences of code units. *)
Definition slice_0_8 (s : string) : string := String.substring 0 8 s.

Module Client.

Definition SERVER_URL : string := "https://pair-programming-server.onrender.com".

(** The cells of [useState], in declaration order. *)
Record View : Type := mkView {
  joined : bool;
  roomId : string;
  userName : string;
  language : string;
  code : string;
  copySuccess : string;
  users : list string;
  typing : string;
  suggestion : jsval
}.

(** The mounted Monaco editor, reduced to what the client asks of it:
    [getModel().getOffsetAt(getPosition())]. *)
Record Editor : Type := mkEditor { cursor : nat }.

(** What a [setTimeout] callback of this file does when it runs. The
    autocomplete callback closes over [newCode] and over the
    [fetchAutocomplete] of the render in which the edit happened, hence over
    that render's [language]. *)
Inductive Callback : Type :=
| ClearTyping
| ClearSuggestion
| ClearCopySuccess
| Autocomplete (newCode : string) (lang : string).

Record Timer : Type := mkTimer { tid : nat; due : nat; cb : Callback }.

Record State : Type := mkState {
  view : View;
  editorRef : option Editor;
  autocompleteTimerRef : option nat;
  (* the browser: clock in milliseconds, next timer id, pending timers in
     the order they were scheduled *)
  now : nat;
  next_timer : nat;
  timers : list Timer
}.

Inductive Effect : Type :=
| Emit (event : string) (args : list jsval)
| Fetch (url : string) (body : jsval)
| ClipboardWrite (text : string)
| ConsoleError.

Definition init_view : View :=
  mkView false EmptyString EmptyString "javascript" "// start code here"
         EmptyString [] EmptyString (JStr EmptyString).

(** Browsers hand out timer ids from 1. *)
Definition init : State := mkState init_view None None 0 1 [].

(** *** State setters *)

Definition setJoined (b : bool) (v : View) : View :=
  mkView b (roomId v) (userName v) (language v) (code v) (copySuccess v)
         (users v) (typing v) (suggestion v).
Definition setRoomId (s : string) (v : View) : View :=
  mkView (joined v) s (userName v) (language v) (code v) (copySuccess v)
         (users v) (typing v) (suggestion v).
Definition setUserName (s : string) (v : View) : View :=
  mkView (joined v) (roomId v) s (language v) (code v) (copySuccess v)
         (users v) (typing v) (suggestion v).
Definition setLanguage (s : string) (v : View) : View :=
  mkView (joined v) (roomId v) (userName v) s (code v) (copySuccess v)
         (users v) (typing v) (suggestion v).
Definition setCode (s : string) (v : View) : View :=
  mkView (joined v) (roomId v) (userName v) (language v) s (copySuccess v)
         (users v) (typing v) (suggestion v).
Definition setCopySuccess (s : string) (v : View) : View :=
  mkView (joined v) (roomId v) (userName v) (language v) (code v) s
         (users v) (typing v) (suggestion v).
Definition setUsers (l : list string) (v : View) : View :=
  mkView (joined v) (roomId v) (userName v) (language v) (code v)
         (copySuccess v) l (typing v) (suggestion v).
Definition setTyping (s : string) (v : View) : View :=
  mkView (joined v) (roomId v) (userName v) (language v) (code v)
         (copySuccess v) (users v) s (suggestion v).
Definition setSuggestion (x : jsval) (v : View) : View :=
  mkView (joined v) (roomId v) (userName v) (language v) (code v)
         (copySuccess v) (users v) (typing v) x.

Definition with_view (f : View → View) (st : State) : State :=
  mkState (f (view st)) (editorRef st) (autocompleteTimerRef st)
          (now st) (next_timer st) (timers st).

(** *** Timers *)

(** [setTimeout(cb, delay)]: the new timer's id and the new state. *)
Definition setTimeout (c : Callback) (delay : nat) (st : State) : nat * State :=
  (next_timer st,
   mkState (view st) (editorRef st) (autocompleteTimerRef st) (now st)
           (S (next_timer st))
           (timers st ++ [mkTimer (next_timer st) (now st + delay) c])).

(** [clearTimeout(id)]: an id that is not pending is ignored. *)
Definition clearTimeout (id : nat) (st : State) : State :=
  mkState (view st) (editorRef st) (autocompleteTimerRef st) (now st)
          (next_timer st)
          (filter (λ t, tid t ≠ id) (timers st)).

Definition set_autocompleteTimerRef (r : option nat) (st : State) : State :=
  mkState (view st) (editorRef st) r (now st) (next_timer st) (timers st).

Definition set_editorRef (r : option Editor) (st : State) : State :=
  mkState (view st) r (autocompleteTimerRef st) (now st) (next_timer st)
          (timers st).

(** *** The autocomplete request *)

Definition autocomplete_body (currentCode : string) (cursorPos : nat)
    (lang : string) : jsval :=
  JObj [("code", JStr currentCode);
        ("cursorPosition", JNum cursorPos);
        ("language", JStr lang)].

(** [fetchAutocomplete] up to its first [await]: the POST. *)
Definition fetchAutocomplete (currentCode : string) (cursorPos : nat)
    (lang : string) : Effect :=
  Fetch (SERVER_URL +:+ "/autocomplete")
        (autocomplete_body currentCode cursorPos lang).

(** The outcome of [await fetch(...)] followed by [await response.json()]. *)
Inductive FetchResult : Type :=
| Resolved (data : jsval)
| Rejected.

(** [fetchAutocomplete] after its awaits. *)
Definition fetchAutocomplete_resume (r : FetchResult) (st : State)
    : State * list Effect :=
  match r with
  | Rejected => (st, [ConsoleError])
  | Resolved data =>
      match get_prop data "suggestion" with
      | None => (st, [ConsoleError])
      | Some s =>
          if truthy s then
            let st1 := with_view (setSuggestion s) st in
            ((setTimeout ClearSuggestion 5000 st1).2, [])
          else (st, [])
      end
  end.

(** *** Handlers, named as in the source *)

Definition joinRoom (st : State) : State * list Effect :=
  let v := view st in
  if negb (is_empty_string (roomId v)) && negb (is_empty_string (userName v))
  then (with_view (setJoined true) st,
        [Emit "join" [JObj [("roomId", JStr (roomId v));
                            ("userName", JStr (userName v))]]])
  else (st, []).

Definition leaveRoom (st : State) : State * list Effect :=
  (with_view (λ v, setSuggestion (JStr EmptyString)
                     (setLanguage "javascript"
                       (setCode "// start code here"
                         (setUserName EmptyString
                           (setRoomId EmptyString
                             (setJoined false v)))))) st,
   [Emit "leaveRoom" []]).

Definition handleBeforeUnload (st : State) : State * list Effect :=
  (st, [Emit "leaveRoom" []]).

Definition generateRoomId (randomId : string) (st : State)
    : State * list Effect :=
  (with_view (setRoomId randomId) st, []).

Definition copyRoomId (st : State) : State * list Effect :=
  let st1 := with_view (setCopySuccess "Copied!") st in
  ((setTimeout ClearCopySuccess 2000 st1).2,
   [ClipboardWrite (roomId (view st))]).

Definition handleCodeChange (newCode : string) (st : State)
    : State * list Effect :=
  let v := view st in
  let st1 := with_view (setCode newCode) st in
  let st2 :=
    match autocompleteTimerRef st1 with
    | Some id => if negb (id =? 0) then clearTimeout id st1 else st1
    | None => st1
    end in
  let '(id, st3) := setTimeout (Autocomplete newCode (language v)) 600 st2 in
  (set_autocompleteTimerRef (Some id) st3,
   [Emit "codeChange" [JObj [("roomId", JStr (roomId v));
                             ("code", JStr newCode)]];
    Emit "typing" [JObj [("roomId", JStr (roomId v));
                         ("userName", JStr (userName v))]]]).

Definition handleLanguageChange (newLanguage : string) (st : State)
    : State * list Effect :=
  let v := view st in
  (with_view (λ v, setSuggestion (JStr EmptyString)
                     (setLanguage newLanguage v)) st,
   [Emit "languageChange" [JObj [("roomId", JStr (roomId v));
                                 ("language", JStr newLanguage)]]]).

Definition handleEditorDidMount (e : Editor) (st : State)
    : State * list Effect :=
  (set_editorRef (Some e) st, []).

(** The listeners registered with [socket.on]. *)
Definition on_userJoined (l : list string) (st : State) : State * list Effect :=
  (with_view (setUsers l) st, []).
Definition on_codeUpdate (newCode : string) (st : State) : State * list Effect :=
  (with_view (setCode newCode) st, []).
Definition on_userTyping (user : string) (st : State) : State * list Effect :=
  let st1 := with_view (setTyping (slice_0_8 user +:+ "... is Typing")) st in
  ((setTimeout ClearTyping 2000 st1).2, []).
Definition on_languageUpdate (l : string) (st : State) : State * list Effect :=
  (with_view (setLanguage l) st, []).

(** *** Rendering *)

(** The [<li>] texts of the user list. *)
Definition render_users (v : View) : list string :=
  map (λ user, slice_0_8 user +:+ "...") (users v).

(** *** Events of the component *)

Inductive Action : Type :=
(* the join form *)
| TypeRoomId (s : string)
| TypeUserName (s : string)
| ClickGenerate (randomId : string)
| ClickJoin
(* the editor page *)
| ClickCopy
| ClickLeave
| SelectLanguage (value : string)
| EditorMounted (e : Editor)
| EditorCursor (offset : nat)
| EditorChange (newCode : string)
(* the window *)
| BeforeUnload
(* the socket *)
| RecvUserJoined (l : list string)
| RecvCodeUpdate (newCode : string)
| RecvUserTyping (user : string)
| RecvLanguageUpdate (newLanguage : string)
(* the autocomplete POST settles *)
| FetchSettled (r : FetchResult).

Definition step (a : Action) (st : State) : State * list Effect :=
  match a with
  | TypeRoomId s => (with_view (setRoomId s) st, [])
  | TypeUserName s => (with_view (setUserName s) st, [])
  | ClickGenerate r => generateRoomId r st
  | ClickJoin => joinRoom st
  | ClickCopy => copyRoomId st
  | ClickLeave => leaveRoom st
  | SelectLanguage l => handleLanguageChange l st
  | EditorMounted e => handleEditorDidMount e st
  | EditorCursor n =>
      (match editorRef st with
       | Some _ => set_editorRef (Some (mkEditor n)) st
       | None => st
       end, [])
  | EditorChange c => handleCodeChange c st
  | BeforeUnload => handleBeforeUnload st
  | RecvUserJoined l => on_userJoined l st
  | RecvCodeUpdate c => on_codeUpdate c st
  | RecvUserTyping u => on_userTyping u st
  | RecvLanguageUpdate l => on_languageUpdate l st
  | FetchSettled r => fetchAutocomplete_resume r st
  end.

(** *** The passage of time *)

Definition run_callback (c : Callback) (st : State) : State * list Effect :=
  match c with
  | ClearTyping => (with_view (setTyping EmptyString) st, [])
  | ClearSuggestion => (with_view (setSuggestion (JStr EmptyString)) st, [])
  | ClearCopySuccess => (with_view (setCopySuccess EmptyString) st, [])
  | Autocomplete newCode lang =>
      match editorRef st with
      | Some editor => (st, [fetchAutocomplete newCode (cursor editor) lang])
      | None => (st, [])
      end
  end.

Fixpoint run_callbacks (l : list Timer) (st : State) : State * list Effect :=
  match l with
  | [] => (st, [])
  | t :: l' =>
      let '(st1, e1) := run_callback (cb t) st in
      let '(st2, e2) := run_callbacks l' st1 in
      (st2, e1 ++ e2)
  end.

(** Timers run by due time, and in scheduling order when due together. *)
Fixpoint insert_by_due (t : Timer) (l : list Timer) : list Timer :=
  match l with
  | [] => [t]
  | u :: l' => if due t <=? due u then t :: l else u :: insert_by_due t l'
  end.

Definition fire_order (l : list Timer) : list Timer :=
  foldr insert_by_due [] l.

(** [d] milliseconds pass: every timer due by then runs and is gone. *)
Definition advance (d : nat) (st : State) : State * list Effect :=
  let target := now st + d in
  let ready := fire_order (filter (λ t, due t ≤ target) (timers st)) in
  run_callbacks ready
    (mkState (view st) (editorRef st) (autocompleteTimerRef st) target
             (next_timer st)
             (filter (λ t, target < due t) (timers st))).

(** A trace: wait, then an event, repeatedly. *)
Definition tick (da : nat * Action) (st : State) : State * list Effect :=
  let '(st1, e1) := advance da.1 st in
  let '(st2, e2) := step da.2 st1 in
  (st2, e1 ++ e2).

Fixpoint run (tr : list (nat * Action)) (st : State) : State * list Effect :=
  match tr with
  | [] => (st, [])
  | da :: tr' =>
      let '(st1, e1) := tick da st in
      let '(st2, e2) := run tr' st1 in
      (st2, e1 ++ e2)
  end.

(** *** Observations on effects *)

Definition emitted (effs : list Effect) : list string :=
  omap (λ e, match e with Emit n _ => Some n | _ => None end) effs.

Definition fetched (effs : list Effect) : list jsval :=
  omap (λ e, match e with Fetch _ b => Some b | _ => None end) effs.

Definition is_autocomplete (t : Timer) : bool :=
  match cb t with Autocomplete _ _ => true | _ => false end.

(** The autocomplete requests scheduled and not yet sent. *)
Definition pending_autocomplete (st : State) : list Timer :=
  filter (λ t, is_autocomplete t = true) (timers st).

End Client.

(** ** Debouncing of the autocomplete request

    Vocabulary for the 600 ms timer of [handleCodeChange]. *)

Module Debounce.

Import Client.

(** What holds of the browser's timer queue and of [autocompleteTimerRef]
    in every state the client reaches: ids are positive, below the next id
    and distinct, and an autocomplete timer still pending is the one the
    ref names. *)
Definition wf (st : State) : Prop :=
  1 ≤ next_timer st
  ∧ Forall (λ t, 1 ≤ tid t ∧ tid t < next_timer st) (timers st)
  ∧ NoDup (tid <$> timers st)
  ∧ Forall (λ t, is_autocomplete t = true →
                 autocompleteTimerRef st = Some (tid t)) (timers st).

Definition is_edit (a : Action) : bool :=
  match a with EditorChange _ => true | _ => false end.

(** [spaced e tr]: the trace [tr] starts [e] ms after an edit, and each of
    its edits comes less than 600 ms after the edit before it. Other events
    may fall in between. *)
Fixpoint spaced (e : nat) (tr : list (nat * Action)) : Prop :=
  match tr with
  | [] => True
  | (d, a) :: tr' =>
      if is_edit a then e + d < 600 ∧ spaced 0 tr' else spaced (e + d) tr'
  end.

(** The code of the last edit of [tr], or [c] when it has none. *)
Fixpoint last_edit (c : string) (tr : list (nat * Action)) : string :=
  match tr with
  | [] => c
  | (_, EditorChange c') :: tr' => last_edit c' tr'
  | _ :: tr' => last_edit c tr'
  end.

(** The request the timer of an edit sends when it runs. *)
Definition request_of (st : State) (t : Timer) : list jsval :=
  match cb t with
  | Autocomplete newCode lang =>
      match editorRef st with
      | Some editor => [autocomplete_body newCode (cursor editor) lang]
      | None => []
      end
  | _ => []
  end.

(** [armed e c st]: the last edit, to code [c], happened [e] ms ago and
    its timer is the one autocomplete timer pending. *)
Definition armed (e : nat) (c : string) (st : State) : Prop :=
  ∃ t lang,
    pending_autocomplete st = [t]
    ∧ cb t = Autocomplete c lang
    ∧ due t + e = now st + 600.

End Debounce.

(** ** The room session core

    Modelled from the spec: the server (registry, dispatcher and suggestion
    engine) has no source file here, only its client and its README. Each
    operation follows the wording of the specification's component design.
    Timestamps ([createdAt], [updatedAt]) are left out: no result, broadcast
    or snapshot described there depends on them. *)

Module Server.

(** Modelled from the spec: the error taxonomy, less the persistence error
    that never reaches the collaboration path. *)
Inductive Error : Type :=
| ValidationError
| UnsupportedLanguage
| NotFoundError.

(** Modelled from the spec: what the specification leaves to the deployment,
    namely the fixed supported set, the default language of a fresh room,
    the per-language table of [keyword → snippet] pairs in declaration
    order, and the class of identifier/keyword characters. *)
Record Config : Type := mkConfig {
  supported : list string;
  default_language : string;
  table : string → list (string * string);
  ident_char : Ascii.ascii → bool
}.

(** Modelled from the spec: a participant record. *)
Record Participant : Type := mkParticipant {
  connectionId : nat;
  displayName : string
}.

(** Modelled from the spec: a room of the live registry. Members are kept
    in joining order. *)
Record Room : Type := mkRoom {
  code : string;
  language : string;
  members : list Participant
}.

(** Modelled from the spec: the persistence gateway's snapshot. *)
Record Snapshot : Type := mkSnapshot {
  snap_code : string;
  snap_language : string;
  memberNamesAtLastSave : list string
}.

(** Modelled from the spec: live rooms, the presence index
    [connectionId → roomId], and the durable store as [get] sees it. *)
Record Registry : Type := mkRegistry {
  rooms : gmap string Room;
  presence : gmap nat string;
  durable : gmap string Snapshot
}.

Definition empty : Registry := mkRegistry ∅ ∅ ∅.

(** Modelled from the spec: the outbound events [userJoined], [codeUpdate],
    [userTyping], [languageUpdate] with their payloads. *)
Inductive Event : Type :=
| UserJoined (names : list string)
| CodeUpdate (newCode : string)
| UserTyping (actor : string)
| LanguageUpdate (newLanguage : string).

(** Modelled from the spec: what an operation asks of the dispatcher and of
    the persistence gateway. *)
Inductive Effect : Type :=
| Deliver (to : nat) (ev : Event)
| EnqueuePut (roomId : string) (s : Snapshot).

Definition names (r : Room) : list string := displayName <$> members r.

Definition snapshot (r : Room) : Snapshot :=
  mkSnapshot (code r) (language r) (names r).

(** Modelled from the spec: [broadcast(roomId, eventName, payload,
    excludeConnectionId?)]; an unknown room is a silent no-op. *)
Definition broadcast (g : Registry) (roomId : string) (ev : Event)
    (exclude : option nat) : list Effect :=
  match rooms g !! roomId with
  | None => []
  | Some r =>
      (λ p, Deliver (connectionId p) ev)
        <$> filter (λ p, Some (connectionId p) ≠ exclude) (members r)
  end.

Definition without (c : nat) (l : list Participant) : list Participant :=
  filter (λ p, connectionId p ≠ c) l.

(** Modelled from the spec: [leave(connectionId)] and
    [disconnect(connectionId)]. Resolve through the presence index (absent:
    no-op), remove the participant, re-broadcast the member list to the
    remaining members; an emptied room is flushed and evicted. *)
Definition leave (c : nat) (g : Registry) : Registry * list Effect :=
  match presence g !! c with
  | None => (g, [])
  | Some rid =>
      match rooms g !! rid with
      | None => (mkRegistry (rooms g) (delete c (presence g)) (durable g), [])
      | Some r =>
          let r' := mkRoom (code r) (language r) (without c (members r)) in
          match members r' with
          | [] =>
              (mkRegistry (delete rid (rooms g)) (delete c (presence g))
                          (<[rid := snapshot r']> (durable g)), [])
          | _ :: _ =>
              let g' := mkRegistry (<[rid := r']> (rooms g))
                                   (delete c (presence g)) (durable g) in
              (g', broadcast g' rid (UserJoined (names r')) None)
          end
      end
  end.

(** Modelled from the spec: hydrate-or-create. A live room is taken as it
    is; otherwise code and language come from the snapshot if there is one,
    else the code is empty and the language the default; nobody is in it. *)
Definition open_room (cfg : Config) (g : Registry) (rid : string) : Room :=
  match rooms g !! rid with
  | Some r => r
  | None =>
      match durable g !! rid with
      | Some s => mkRoom (snap_code s) (snap_language s) []
      | None => mkRoom EmptyString (default_language cfg) []
      end
  end.

(** Modelled from the spec: [join(connectionId, roomId, displayName)]. A
    participant is in exactly one room at a time and the presence index
    moves in lock-step with membership, so a connection that joins while
    present elsewhere leaves that room first. *)
Definition join (cfg : Config) (c : nat) (rid name : string) (g : Registry)
    : Error + Registry * list Effect :=
  if is_empty_string rid || is_empty_string name then inl ValidationError
  else
    let '(g1, e1) := leave c g in
    let r := open_room cfg g1 rid in
    let r' := mkRoom (code r) (language r)
                     (members r ++ [mkParticipant c name]) in
    let g2 := mkRegistry (<[rid := r']> (rooms g1))
                         (<[c := rid]> (presence g1)) (durable g1) in
    inr (g2, e1 ++ broadcast g2 rid (UserJoined (names r')) None).

Definition room_of (g : Registry) (c : nat) : option (string * Room) :=
  rid ← presence g !! c; r ← rooms g !! rid; Some (rid, r).

(** Modelled from the spec: [changeCode(connectionId, newCode)]. *)
Definition changeCode (c : nat) (newCode : string) (g : Registry)
    : Error + Registry * list Effect :=
  match room_of g c with
  | None => inl NotFoundError
  | Some (rid, r) =>
      let r' := mkRoom newCode (language r) (members r) in
      let g' := mkRegistry (<[rid := r']> (rooms g)) (presence g)
                           (durable g) in
      inr (g', EnqueuePut rid (snapshot r')
                 :: broadcast g' rid (CodeUpdate newCode) (Some c))
  end.

Definition is_supported (cfg : Config) (l : string) : bool :=
  bool_decide (l ∈ supported cfg).

(** Modelled from the spec: [changeLanguage(connectionId, newLanguage)]. *)
Definition changeLanguage (cfg : Config) (c : nat) (newLanguage : string)
    (g : Registry) : Error + Registry * list Effect :=
  if negb (is_supported cfg newLanguage) then inl UnsupportedLanguage
  else
    match room_of g c with
    | None => inl NotFoundError
    | Some (rid, r) =>
        let r' := mkRoom (code r) newLanguage (members r) in
        let g' := mkRegistry (<[rid := r']> (rooms g)) (presence g)
                             (durable g) in
        inr (g', EnqueuePut rid (snapshot r')
                   :: broadcast g' rid (LanguageUpdate newLanguage) (Some c))
    end.

Definition name_of (c : nat) (r : Room) : option string :=
  displayName <$> head (filter (λ p, connectionId p = c) (members r)).

(** Modelled from the spec: [typingPing(connectionId)]; no state is
    touched, and a connection without a room reaches nobody. *)
Definition typingPing (c : nat) (g : Registry)
    : Error + Registry * list Effect :=
  match room_of g c with
  | None => inr (g, [])
  | Some (rid, r) =>
      match name_of c r with
      | None => inr (g, [])
      | Some actor => inr (g, broadcast g rid (UserTyping actor) (Some c))
      end
  end.

(** *** The suggestion engine *)

(** Modelled from the spec: the result of [suggest]. *)
Record Suggestion : Type := mkSuggestion {
  suggestion : option string;
  alternatives : list string
}.

Definition newline : Ascii.ascii := Ascii.ascii_of_nat 10.

(** The longest suffix of [s] all of whose characters satisfy [P]. *)
Fixpoint trailing_run (P : Ascii.ascii → bool) (s : string) : string :=
  match s with
  | EmptyString => EmptyString
  | String a s' =>
      let t := trailing_run P s' in
      if P a && (String.length t =? String.length s') then String a t else t
  end.

(** Modelled from the spec: step 1, the line containing the cursor, from its
    start to the cursor. *)
Definition line_prefix (code : string) (cursorOffset : nat) : string :=
  trailing_run (λ a, negb (Ascii.eqb a newline))
               (String.substring 0 cursorOffset code).

(** Modelled from the spec: step 2, the longest trailing run of
    identifier/keyword characters of the line prefix. *)
Definition fragment (cfg : Config) (code : string) (cursorOffset : nat)
    : string :=
  trailing_run (ident_char cfg) (line_prefix code cursorOffset).

(** Modelled from the spec: step 3, an entry matches when its key is a
    prefix of the fragment or the non-empty fragment is a prefix of its
    key. *)
Definition matches (frag : string) (e : string * string) : bool :=
  String.prefix e.1 frag
  || (negb (is_empty_string frag) && String.prefix frag e.1).

Fixpoint common_prefix (a b : string) : nat :=
  match a, b with
  | String x a', String y b' =>
      if Ascii.eqb x y then S (common_prefix a' b') else 0
  | _, _ => 0
  end.

Definition specificity (frag : string) (e : string * string) : nat :=
  common_prefix e.1 frag.

(** Modelled from the spec: steps 3 and 5, the matches ordered by longest
    shared prefix first, declaration order among equals. *)
Fixpoint insert_ranked (frag : string) (e : string * string)
    (l : list (string * string)) : list (string * string) :=
  match l with
  | [] => [e]
  | u :: l' =>
      if specificity frag u <=? specificity frag e then e :: l
      else u :: insert_ranked frag e l'
  end.

Definition ranked (frag : string) (tbl : list (string * string))
    : list (string * string) :=
  foldr (insert_ranked frag) [] (filter (λ e, matches frag e = true) tbl).

(** Modelled from the spec: [suggest(code, cursorOffset, language)], its
    two preconditions, then the first of the ranked matches as [suggestion]
    and all of them as [alternatives]. *)
Definition suggest (cfg : Config) (code : string) (cursorOffset : nat)
    (lang : string) : Error + Suggestion :=
  if String.length code <? cursorOffset then inl ValidationError
  else if negb (is_supported cfg lang) then inl UnsupportedLanguage
  else
    let r := ranked (fragment cfg code cursorOffset) (table cfg lang) in
    inr (mkSuggestion (snd <$> head r) (snd <$> r)).

(** The wire form of a result as the README documents the
    [POST /autocomplete] response: [suggestion] and [allSuggestions]. *)
Definition response_body (s : Suggestion) : jsval :=
  JObj [("suggestion", from_option JStr JNull (suggestion s));
        ("allSuggestions", JArr (JStr <$> alternatives s))].

(** *** One entry point *)

(** Modelled from the spec: the operations, as requests. *)
Inductive Request : Type :=
| Join (c : nat) (roomId displayName : string)
| Leave (c : nat)
| Disconnect (c : nat)
| ChangeCode (c : nat) (newCode : string)
| ChangeLanguage (c : nat) (newLanguage : string)
| TypingPing (c : nat)
| Suggest (code : string) (cursorOffset : nat) (lang : string).

Inductive Response : Type :=
| Done
| Failed (e : Error)
| Suggested (s : Suggestion).

(** Modelled from the spec: a failed operation leaves the registry as it
    was and reaches nobody. *)
Definition settle (g : Registry) (r : Error + Registry * list Effect)
    : Registry * list Effect * Response :=
  match r with
  | inl e => (g, [], Failed e)
  | inr (g', effs) => (g', effs, Done)
  end.

(** Modelled from the spec: inbound events to operations; suggestion
    requests go past the registry. *)
Definition handle (cfg : Config) (req : Request) (g : Registry)
    : Registry * list Effect * Response :=
  match req with
  | Join c rid name => settle g (join cfg c rid name g)
  | Leave c | Disconnect c => settle g (inr (leave c g))
  | ChangeCode c newCode => settle g (changeCode c newCode g)
  | ChangeLanguage c l => settle g (changeLanguage cfg c l g)
  | TypingPing c => settle g (typingPing c g)
  | Suggest code cur lang =>
      match suggest cfg code cur lang with
      | inl e => (g, [], Failed e)
      | inr s => (g, [], Suggested s)
      end
  end.

Definition deliveries (effs : list Effect) : list (nat * Event) :=
  omap (λ e, match e with Deliver c ev => Some (c, ev) | _ => None end) effs.

End Server.

(** ** Clients attached to a registry

    Each connection has a client; what the dispatcher delivers to a
    connection runs that client's [socket.on] listener. *)

Module System.

#[global] Instance client_inhabited : Inhabited Client.State :=
  populate Client.init.

Definition listener (ev : Server.Event) : Client.Action :=
  match ev with
  | Server.UserJoined l => Client.RecvUserJoined l
  | Server.CodeUpdate c => Client.RecvCodeUpdate c
  | Server.UserTyping u => Client.RecvUserTyping u
  | Server.LanguageUpdate l => Client.RecvLanguageUpdate l
  end.

Definition perform (cl : gmap nat Client.State) (e : Server.Effect)
    : gmap nat Client.State :=
  match e with
  | Server.Deliver c ev =>
      <[c := (Client.step (listener ev) (cl !!! c)).1]> cl
  | Server.EnqueuePut _ _ => cl
  end.

Record World : Type := mkWorld {
  registry : Server.Registry;
  clients : gmap nat Client.State
}.

Definition start : World := mkWorld Server.empty ∅.

Definition step (cfg : Server.Config) (w : World) (req : Server.Request)
    : World :=
  let '(g, effs, _) := Server.handle cfg req (registry w) in
  mkWorld g (foldl perform (clients w) effs).

Definition run (cfg : Server.Config) (reqs : list Server.Request) (w : World)
    : World :=
  foldl (step cfg) w reqs.











(** The member list a connection was last sent among some deliveries. *)
Definition last_users (c : nat) (ds : list (nat * Server.Event))
    : option (list string) :=
  last (omap (λ d, match d.2 with
                   | Server.UserJoined l =>
                       if decide (d.1 = c) then Some l else None
                   | _ => None
                   end) ds).

End System.

(** ** Names the specification uses, for comparison with the client's *)

(** The inbound transport events as the specification lists them. *)
Definition spec_inbound_events : list string :=
  ["join"; "leave"; "disconnect"; "codeChange"; "typing"; "languageChange"].

(** The event names [App.jsx] passes to [socket.emit]. *)
Definition client_events : list string :=
  ["join"; "leaveRoom"; "codeChange"; "typing"; "languageChange"].

(** The fields of the suggestion boundary as the specification names them. *)
Definition spec_request_fields : list string :=
  ["code"; "cursorOffset"; "language"].

Definition client_request_fields : list string :=
  ["code"; "cursorPosition"; "language"].

(** ** A sample deployment

    One instance of the configuration, for evaluating the model: the
    languages the README lists, its documented [def] snippet among the Python
    entries, and letters, digits and the underscore as identifier
    characters. *)

Definition letters_digits_underscore (a : Ascii.ascii) : bool :=
  let n := Ascii.nat_of_ascii a in
  (48 <=? n) && (n <=? 57) || (65 <=? n) && (n <=? 90)
  || (97 <=? n) && (n <=? 122) || (n =? 95).

Definition sample_config : Server.Config :=
  Server.mkConfig ["python"; "javascript"; "typescript"; "java"; "cpp"]
    "python"
    (λ l, if String.eqb l "python"
          then [("def", "def function_name(param1, param2):");
                ("class", "class ClassName:");
                ("default", "default_value = None")]
          else [])
    letters_digits_underscore.

(** Alice, then Bob, in room [r1]: the setting of the specification's
    examples. *)
Definition alice_and_bob : Server.Registry :=
  System.registry
    (System.run sample_config
       [Server.Join 1 "r1" "Alice"; Server.Join 2 "r1" "Bob"] System.start).

Definition room_r1 : Server.Room :=
  Server.mkRoom EmptyString "python"
    [Server.mkParticipant 1 "Alice"; Server.mkParticipant 2 "Bob"].

(** ** The page

    What the component returns: the join form while [joined] is false, the
    editor page otherwise, and with it the events that can reach the
    handlers. *)

Module Page.

Import Client.

Inductive Screen : Type := JoinForm | EditorPage.

Definition screen (v : View) : Screen :=
  if joined v then EditorPage else JoinForm.

(** The [value]s of the options of the language selector. *)
Definition language_options : list string :=
  ["javascript"; "python"; "java"; "cpp"].

(** The inputs and buttons of a screen; the socket, the window and settled
    requests need no control. The selector hands over one of its options. *)
Definition offers (s : Screen) (a : Action) : bool :=
  match a with
  | TypeRoomId _ | TypeUserName _ | ClickGenerate _ | ClickJoin =>
      match s with JoinForm => true | EditorPage => false end
  | ClickCopy | ClickLeave | EditorMounted _ | EditorCursor _
  | EditorChange _ =>
      match s with JoinForm => false | EditorPage => true end
  | SelectLanguage l =>
      match s with
      | JoinForm => false
      | EditorPage => bool_decide (l ∈ language_options)
      end
  | BeforeUnload | RecvUserJoined _ | RecvCodeUpdate _ | RecvUserTyping _
  | RecvLanguageUpdate _ | FetchSettled _ => true
  end.

(** A trace in which every event comes from the page as rendered when it
    happens. *)
Fixpoint admissible (tr : list (nat * Action)) (st : State) : bool :=
  match tr with
  | [] => true
  | da :: tr' =>
      offers (screen (view (advance da.1 st).1)) da.2
      && admissible tr' (tick da st).1
  end.

(** The three displays that a timer takes away again: the typing line, the
    badge beside the copy button, the suggestion box. *)
Inductive Transient : Type := TypingLine | CopiedBadge | SuggestionBox.

Definition clearer (k : Transient) : Callback :=
  match k with
  | TypingLine => ClearTyping
  | CopiedBadge => ClearCopySuccess
  | SuggestionBox => ClearSuggestion
  end.

Definition delay (k : Transient) : nat :=
  match k with
  | TypingLine => 2000
  | CopiedBadge => 2000
  | SuggestionBox => 5000
  end.

(** Whether the page shows it: the typing line by its text, the other two
    behind [copySuccess && ...] and [suggestion && ...]. *)
Definition shown (k : Transient) (v : View) : bool :=
  match k with
  | TypingLine => negb (is_empty_string (typing v))
  | CopiedBadge => negb (is_empty_string (copySuccess v))
  | SuggestionBox => truthy (suggestion v)
  end.

Definition clears (k : Transient) (c : Callback) : bool :=
  match k, c with
  | TypingLine, ClearTyping => true
  | CopiedBadge, ClearCopySuccess => true
  | SuggestionBox, ClearSuggestion => true
  | _, _ => false
  end.

(** The events whose handler may put it on the page. *)
Definition sets (k : Transient) (a : Action) : bool :=
  match k, a with
  | TypingLine, RecvUserTyping _ => true
  | CopiedBadge, ClickCopy => true
  | SuggestionBox, FetchSettled _ => true
  | _, _ => false
  end.



End Page.

(** ** What the server sees of a client

    The socket events of a run, read the way their receiver would. *)

Module Wire.

Import Client.

Definition str_field (k : string) (args : list jsval) : option string :=
  match args with
  | [o] => match get_prop o k with Some (JStr s) => Some s | _ => None end
  | _ => None
  end.

(** Reading one effect with [m], the room id and user name of the last
    [join] sent: the new value of [m], or [None] when the event does not
    fit, that is a [join] with an empty field, or a [codeChange], [typing]
    or [languageChange] that names another room (or user) than that join,
    or a language that the selector does not offer. *)
Definition observe (m : option (string * string)) (e : Effect)
    : option (option (string * string)) :=
  match e with
  | Emit ev args =>
      if String.eqb ev "join" then
        match str_field "roomId" args, str_field "userName" args with
        | Some r, Some n =>
            if is_empty_string r || is_empty_string n then None
            else Some (Some (r, n))
        | _, _ => None
        end
      else if String.eqb ev "codeChange" then
        match m, str_field "roomId" args with
        | Some (r, _), Some r' => if String.eqb r r' then Some m else None
        | _, _ => None
        end
      else if String.eqb ev "typing" then
        match m, str_field "roomId" args, str_field "userName" args with
        | Some (r, n), Some r', Some n' =>
            if String.eqb r r' && String.eqb n n' then Some m else None
        | _, _, _ => None
        end
      else if String.eqb ev "languageChange" then
        match m, str_field "roomId" args, str_field "language" args with
        | Some (r, _), Some r', Some l =>
            if String.eqb r r' && bool_decide (l ∈ Page.language_options)
            then Some m else None
        | _, _, _ => None
        end
      else Some m
  | _ => Some m
  end.

Fixpoint follow (m : option (string * string)) (effs : list Effect)
    : option (option (string * string)) :=
  match effs with
  | [] => Some m
  | e :: effs' =>
      match observe m e with
      | Some m' => follow m' effs'
      | None => None
      end
  end.

(** The codes of the edits of a trace, and the codes of the [codeChange]
    events among some effects, both in order. *)
Definition edit_codes (tr : list (nat * Action)) : list string :=
  omap (λ da, match da.2 with EditorChange c => Some c | _ => None end) tr.

Definition is_event (name : string) (e : Effect) : bool :=
  match e with Emit ev _ => String.eqb ev name | _ => false end.

Definition sent_codes (effs : list Effect) : list string :=
  omap (λ e, match e with
             | Emit ev args =>
                 if String.eqb ev "codeChange" then str_field "code" args
                 else None
             | _ => None
             end) effs.

(** A trace of edits only. *)
Definition edit_trace (edits : list (nat * string)) : list (nat * Action) :=
  (λ e, (e.1, EditorChange e.2)) <$> edits.

(** The client is in a session: what the last [join] said is what the view
    holds, and neither is empty. *)
Definition in_session (st : State) (m : option (string * string)) : Prop :=
  joined (view st) = true →
  m = Some (roomId (view st), userName (view st))
  ∧ is_empty_string (roomId (view st)) = false
  ∧ is_empty_string (userName (view st)) = false.

(** The value a cell of the view has after a trace, read off the trace
    alone: the last event that writes the cell decides. *)
Fixpoint last_code (c : string) (tr : list (nat * Action)) : string :=
  match tr with
  | [] => c
  | (_, a) :: tr' =>
      last_code (match a with
                 | EditorChange c' | RecvCodeUpdate c' => c'
                 | ClickLeave => "// start code here"
                 | _ => c
                 end) tr'
  end.

Fixpoint last_language (l : string) (tr : list (nat * Action)) : string :=
  match tr with
  | [] => l
  | (_, a) :: tr' =>
      last_language (match a with
                     | SelectLanguage l' | RecvLanguageUpdate l' => l'
                     | ClickLeave => "javascript"
                     | _ => l
                     end) tr'
  end.

Fixpoint last_users (u : list string) (tr : list (nat * Action))
    : list string :=
  match tr with
  | [] => u
  | (_, a) :: tr' =>
      last_users (match a with RecvUserJoined u' => u' | _ => u end) tr'
  end.

End Wire.

(** ** More on timers *)

Module Timers.

Import Client.

(** The id in [autocompleteTimerRef] was handed out, and a pending timer
    with that id is an autocomplete timer: [clearTimeout] on it takes away
    nothing else. *)
Definition ref_wf (st : State) : Prop :=
  ∀ id, autocompleteTimerRef st = Some id →
    id < next_timer st
    ∧ Forall (λ t, tid t = id → is_autocomplete t = true) (timers st).

(** No pending timer is overdue. *)
Definition punctual (st : State) : Prop :=
  Forall (λ t, now st < due t) (timers st).

(** While a transient display is on the page, a timer that clears it is
    pending and due before [deadline]. *)
Definition covered (k : Page.Transient) (deadline : nat) (st : State) : Prop :=
  Page.shown k (view st) = true →
  Exists (λ t, Page.clears k (cb t) = true ∧ due t ≤ deadline) (timers st).

End Timers.

(** Membership in a list that is written out. *)
Ltac in_list := apply list_elem_of_In; simpl; tauto.

(** * Properties of the client *)

Section client_frames.

Import Client.

Lemma with_view_frame f st :
  editorRef (with_view f st) = editorRef st
  ∧ autocompleteTimerRef (with_view f st) = autocompleteTimerRef st
  ∧ now (with_view f st) = now st
  ∧ next_timer (with_view f st) = next_timer st
  ∧ timers (with_view f st) = timers st.
Proof. by destruct st. Qed.

Lemma run_callback_emits_nothing c st : emitted (run_callback c st).2 = [].
Proof. destruct c; simpl; try done. by destruct (editorRef st). Qed.

Lemma emitted_app e1 e2 : emitted (e1 ++ e2) = emitted e1 ++ emitted e2.
Proof. apply omap_app. Qed.

Lemma fetched_app e1 e2 : fetched (e1 ++ e2) = fetched e1 ++ fetched e2.
Proof. apply omap_app. Qed.

Lemma run_callbacks_emit_nothing l st : emitted (run_callbacks l st).2 = [].
Proof.
  revert st. induction l as [|t l IH]; intros st; simpl; [done|].
  pose proof (run_callback_emits_nothing (cb t) st) as Hc.
  destruct (run_callback (cb t) st) as [st1 e1]; simpl in Hc.
  specialize (IH st1). destruct (run_callbacks l st1) as [st2 e2].
  simpl in *. by rewrite emitted_app, Hc, IH.
Qed.

Lemma advance_emits_nothing d st : emitted (advance d st).2 = [].
Proof. apply run_callbacks_emit_nothing. Qed.

Lemma step_emits_client_events a st :
  Forall (λ n, n ∈ client_events) (emitted (step a st).2).
Proof.
  assert (∀ n l, n ∈ client_events → Forall (λ n, n ∈ client_events) l →
                 Forall (λ n, n ∈ client_events) (n :: l)) as Hcons
    by (intros; by constructor).
  assert ("join" ∈ client_events) by in_list.
  assert ("leaveRoom" ∈ client_events) by in_list.
  assert ("codeChange" ∈ client_events) by in_list.
  assert ("typing" ∈ client_events) by in_list.
  assert ("languageChange" ∈ client_events) by in_list.
  destruct a as [| | | | | | | | | | | | | | |r]; simpl; auto.
  - unfold joinRoom. case_match; simpl; auto.
  - destruct r as [data|]; simpl; [|constructor].
    destruct (get_prop data "suggestion") as [s|]; simpl; [|constructor].
    destruct (truthy s); simpl; constructor.
Qed.

Lemma tick_emits_client_events da st :
  Forall (λ n, n ∈ client_events) (emitted (tick da st).2).
Proof.
  unfold tick. pose proof (advance_emits_nothing da.1 st) as Ha.
  destruct (advance da.1 st) as [st1 e1]; simpl in Ha.
  pose proof (step_emits_client_events da.2 st1) as Hs.
  destruct (step da.2 st1) as [st2 e2]; simpl in *.
  by rewrite emitted_app, Ha.
Qed.

Lemma run_emits_client_events tr st :
  Forall (λ n, n ∈ client_events) (emitted (run tr st).2).
Proof.
  revert st. induction tr as [|da tr IH]; intros st; simpl; [constructor|].
  pose proof (tick_emits_client_events da st) as Ht.
  destruct (tick da st) as [st1 e1]; simpl in Ht.
  specialize (IH st1). destruct (run tr st1) as [st2 e2]; simpl in *.
  rewrite emitted_app. by apply Forall_app.
Qed.

End client_frames.

(** C9. [leaveRoom] puts [joined], [roomId], [userName], [code], [language]
    and [suggestion] back to their initial values and leaves [users],
    [typing] and [copySuccess] as they were: the list of users of the room
    just left stays in the state. It emits [leaveRoom] and touches neither
    ref nor any timer. *)
Theorem leaveRoom_resets_session_and_keeps_users (st : Client.State) :
  let v := Client.view st in
  let v' := Client.view (Client.leaveRoom st).1 in
  Client.joined v' = Client.joined Client.init_view
  ∧ Client.roomId v' = Client.roomId Client.init_view
  ∧ Client.userName v' = Client.userName Client.init_view
  ∧ Client.code v' = Client.code Client.init_view
  ∧ Client.language v' = Client.language Client.init_view
  ∧ Client.suggestion v' = Client.suggestion Client.init_view
  ∧ Client.users v' = Client.users v
  ∧ Client.typing v' = Client.typing v
  ∧ Client.copySuccess v' = Client.copySuccess v
  ∧ Client.timers (Client.leaveRoom st).1 = Client.timers st
  ∧ Client.autocompleteTimerRef (Client.leaveRoom st).1
    = Client.autocompleteTimerRef st.
Proof. destruct st as [[] ? ? ? ? ?]. simpl. repeat split. Qed.

(** C3, as stated, fails: a user who joins a room and then leaves it makes
    the client emit an event named [leaveRoom], which is neither [leave] nor
    [disconnect]. *)
Lemma leaving_a_joined_room_emits_a_name_outside_the_spec_list :
  let tr := [(0, Client.TypeRoomId "r1"); (0, Client.TypeUserName "Alice");
             (0, Client.ClickJoin); (0, Client.ClickLeave)] in
  Page.admissible tr Client.init = true
  ∧ Client.emitted (Client.run tr Client.init).2 = ["join"; "leaveRoom"]
  ∧ ¬ Forall (λ n, n ∈ spec_inbound_events)
        (Client.emitted (Client.run tr Client.init).2).
Proof.
  split; [reflexivity|]. split; [reflexivity|].
  vm_compute. intros H.
  apply Forall_cons in H as [_ H]. apply Forall_cons in H as [H _].
  apply list_elem_of_In in H. simpl in H.
  repeat (destruct H as [H|H]; [discriminate H|]). done.
Qed.

(** C3, amended. Whatever the client goes through (clicks, edits, socket
    deliveries, settled requests, timers firing), every event it emits bears
    one of the names [join], [leaveRoom], [codeChange], [typing],
    [languageChange], never [leave] or [disconnect]. Each of the five is
    emitted in some run of the page from its initial state. Leaving the room
    and unloading the page both emit [leaveRoom], and nothing else, in
    whatever state. *)
Theorem client_emits_exactly_five_event_names :
  (∀ tr st, Forall (λ n, n ∈ client_events)
              (Client.emitted (Client.run tr st).2))
  ∧ Forall (λ n, ∃ tr, Page.admissible tr Client.init = true
                       ∧ n ∈ Client.emitted (Client.run tr Client.init).2)
      client_events
  ∧ (∀ st, Client.emitted (Client.step Client.ClickLeave st).2 = ["leaveRoom"]
           ∧ Client.emitted (Client.step Client.BeforeUnload st).2
             = ["leaveRoom"]
           ∧ Client.emitted (Client.handleBeforeUnload st).2 = ["leaveRoom"]
           ∧ (Client.handleBeforeUnload st).1 = st)
  ∧ (∀ tr st, ("leave" ∉ Client.emitted (Client.run tr st).2)
              ∧ ("disconnect" ∉ Client.emitted (Client.run tr st).2)).
Proof.
  split; [apply run_emits_client_events|]. split; [|split; [done|]].
  - pose (enter := [(0, Client.TypeRoomId "r1");
                    (0, Client.TypeUserName "Alice"); (0, Client.ClickJoin)]).
    unfold client_events. repeat apply Forall_cons_2; [..|apply Forall_nil_2].
    + exists enter. split; [reflexivity|]. vm_compute. in_list.
    + exists (enter ++ [(0, Client.ClickLeave)]).
      split; [reflexivity|]. vm_compute. in_list.
    + exists (enter ++ [(0, Client.EditorChange "x")]).
      split; [reflexivity|]. vm_compute. in_list.
    + exists (enter ++ [(0, Client.EditorChange "x")]).
      split; [reflexivity|]. vm_compute. in_list.
    + exists (enter ++ [(0, Client.SelectLanguage "python")]).
      split; [reflexivity|]. vm_compute. in_list.
  - intros tr st. pose proof (run_emits_client_events tr st) as H.
    rewrite Forall_forall in H. split; intros Hin; apply H in Hin;
      apply list_elem_of_In in Hin; simpl in Hin;
      repeat (destruct Hin as [Hin|Hin]; [discriminate Hin|]); done.
Qed.

(** C4. A join with an empty room id or an empty display name is answered
    with ValidationError, the registry is what it was and nothing is
    delivered or persisted; the client, for its part, does not even send it:
    [joinRoom] with an empty field changes nothing and emits nothing. *)
Theorem empty_join_is_rejected_without_effect
    (cfg : Server.Config) (c : nat) (rid name : string)
    (g : Server.Registry) (st : Client.State) :
  rid = EmptyString ∨ name = EmptyString →
  Server.handle cfg (Server.Join c rid name) g
    = (g, [], Server.Failed Server.ValidationError)
  ∧ (Client.roomId (Client.view st) = rid →
     Client.userName (Client.view st) = name →
     Client.joinRoom st = (st, [])).
Proof.
  intros Hempty.
  assert (is_empty_string rid || is_empty_string name = true) as Hb.
  { destruct Hempty as [-> | ->]; simpl; [done|]. apply orb_true_r. }
  split.
  - simpl. unfold Server.join. by rewrite Hb.
  - intros <- <-. unfold Client.joinRoom.
    apply orb_true_iff in Hb.
    destruct Hb as [-> | ->]; simpl; [done|]. by rewrite andb_false_r.
Qed.

Lemma empty_join_is_rejected_without_effect_witness :
  let cfg := Server.mkConfig ["python"] "python" (λ _, []) (λ _, false) in
  let st := Client.with_view (Client.setUserName "Alice") Client.init in
  Server.handle cfg (Server.Join 7 EmptyString "Alice") Server.empty
    = (Server.empty, [], Server.Failed Server.ValidationError)
  ∧ Client.joinRoom st = (st, []).
Proof.
  intros cfg st.
  destruct (empty_join_is_rejected_without_effect cfg 7 EmptyString "Alice"
              Server.empty st) as [Hs Hc]; [by left|].
  split; [exact Hs|]. apply Hc; reflexivity.
Defined.

(** C5, as stated, fails: the request does not carry a field named
    [cursorOffset]; the cursor travels as [cursorPosition]. *)
Lemma autocomplete_request_has_no_cursorOffset_field :
  keys (Client.autocomplete_body "def my_function" 15 "python")
    ≠ spec_request_fields
  ∧ get_prop (Client.autocomplete_body "def my_function" 15 "python")
      "cursorOffset" = Some JUndefined.
Proof. split; [discriminate|reflexivity]. Qed.

Lemma resume_reads_only_suggestion (d1 d2 : jsval) (st : Client.State) :
  get_prop d1 "suggestion" = get_prop d2 "suggestion" →
  Client.fetchAutocomplete_resume (Client.Resolved d1) st
    = Client.fetchAutocomplete_resume (Client.Resolved d2) st.
Proof. intros H. unfold Client.fetchAutocomplete_resume. by rewrite H. Qed.

(** C5, amended. The autocomplete request is a POST to [/autocomplete] whose
    body carries exactly the fields [code], [cursorPosition] and [language],
    holding the code, the cursor offset and the language handed to
    [fetchAutocomplete]. Of the response the client reads the field
    [suggestion] and nothing else: two responses that agree on it are handled
    alike, whatever sequence field they carry and however it is named. *)
Theorem autocomplete_request_and_response_fields
    (currentCode : string) (cursorPos : nat) (lang : string) :
  let body := Client.autocomplete_body currentCode cursorPos lang in
  Client.fetched [Client.fetchAutocomplete currentCode cursorPos lang] = [body]
  ∧ keys body = client_request_fields
  ∧ get_prop body "code" = Some (JStr currentCode)
  ∧ get_prop body "cursorPosition" = Some (JNum cursorPos)
  ∧ get_prop body "language" = Some (JStr lang)
  ∧ (∀ d1 d2 st,
       get_prop d1 "suggestion" = get_prop d2 "suggestion" →
       Client.fetchAutocomplete_resume (Client.Resolved d1) st
         = Client.fetchAutocomplete_resume (Client.Resolved d2) st).
Proof. repeat split. apply resume_reads_only_suggestion. Qed.

Lemma autocomplete_request_and_response_fields_witness :
  Client.fetchAutocomplete_resume
    (Client.Resolved (JObj [("suggestion", JStr "pass");
                            ("alternatives", JArr [JStr "pass"])]))
    Client.init
  = Client.fetchAutocomplete_resume
      (Client.Resolved (JObj [("suggestion", JStr "pass");
                              ("allSuggestions", JArr [])]))
      Client.init.
Proof.
  apply (autocomplete_request_and_response_fields "def my_function" 15 "python").
  reflexivity.
Defined.

(** * Properties of the suggestion engine *)

Lemma ranked_no_match (frag : string) (tbl : list (string * string)) :
  Forall (λ e, Server.matches frag e = false) tbl →
  Server.ranked frag tbl = [].
Proof.
  intros H. unfold Server.ranked.
  replace (filter (λ e, Server.matches frag e = true) tbl) with
    (@nil (string * string)); [done|].
  induction H as [|e l He _ IH]; [done|].
  rewrite filter_cons_False; [done|]. by rewrite He.
Qed.

Lemma resume_without_suggestion (data v : jsval) (st : Client.State) :
  get_prop data "suggestion" = Some v → truthy v = false →
  Client.fetchAutocomplete_resume (Client.Resolved data) st = (st, []).
Proof.
  intros Hp Hv. unfold Client.fetchAutocomplete_resume. by rewrite Hp, Hv.
Qed.

(** C7. A request within bounds and in a supported language whose fragment
    matches no entry of the language's table is answered with a result, not an
    error: [suggestion] is none (and there are no alternatives). The client
    takes that response, and any response without a usable [suggestion], as a
    success: its state is unchanged, nothing is shown, nothing is logged. *)
Theorem no_match_is_a_success_without_suggestion
    (cfg : Server.Config) (code : string) (cursorOffset : nat) (lang : string)
    (g : Server.Registry) (st : Client.State) :
  cursorOffset ≤ String.length code →
  lang ∈ Server.supported cfg →
  Forall (λ e, Server.matches (Server.fragment cfg code cursorOffset) e = false)
         (Server.table cfg lang) →
  let s := Server.mkSuggestion None [] in
  Server.suggest cfg code cursorOffset lang = inr s
  ∧ Server.handle cfg (Server.Suggest code cursorOffset lang) g
    = (g, [], Server.Suggested s)
  ∧ Client.fetchAutocomplete_resume (Client.Resolved (Server.response_body s)) st
    = (st, [])
  ∧ (∀ data v, get_prop data "suggestion" = Some v → truthy v = false →
       Client.fetchAutocomplete_resume (Client.Resolved data) st = (st, [])).
Proof.
  intros Hcur Hlang Hnone s.
  assert (Server.suggest cfg code cursorOffset lang = inr s) as Hs.
  { unfold Server.suggest, Server.is_supported.
    destruct (Nat.ltb_spec (String.length code) cursorOffset); [lia|].
    rewrite bool_decide_eq_true_2 by done. simpl.
    by rewrite (ranked_no_match _ _ Hnone). }
  split; [exact Hs|]. split; [simpl; by rewrite Hs|].
  split; [reflexivity|]. intros data v. apply resume_without_suggestion.
Qed.

Lemma no_match_is_a_success_without_suggestion_witness :
  Server.suggest sample_config "x = 1" 5 "python"
    = inr (Server.mkSuggestion None [])
  ∧ Client.fetchAutocomplete_resume
      (Client.Resolved (Server.response_body (Server.mkSuggestion None [])))
      Client.init
    = (Client.init, []).
Proof.
  destruct (no_match_is_a_success_without_suggestion sample_config "x = 1" 5
              "python" Server.empty Client.init) as (Hs & _ & Hc & _).
  - simpl. lia.
  - in_list.
  - vm_compute. repeat constructor.
  - split; [exact Hs | exact Hc].
Defined.

(** * Properties of the registry and the dispatcher *)

Section dispatcher.

Import Server.


Lemma recipients_but (ex : option nat) (c : nat) (l : list Participant) :
  ex = Some c → filter (λ p, Some (connectionId p) ≠ ex) l = without c l.
Proof.
  intros Hex. apply list_filter_iff. intros p. rewrite Hex.
  split; congruence.
Qed.


Lemma deliveries_fmap_Deliver {A} (f : A → nat) (ev : Event) (l : list A) :
  deliveries ((λ p, Deliver (f p) ev) <$> l) = (λ p, (f p, ev)) <$> l.
Proof. induction l as [|p l IH]; [done|]. simpl. by f_equal. Qed.


Lemma deliveries_broadcast_but g rid r ev c :
  rooms g !! rid = Some r →
  deliveries (broadcast g rid ev (Some c))
    = (λ p, (connectionId p, ev)) <$> without c (members r).
Proof.
  intros Hr. unfold broadcast. rewrite Hr, (recipients_but _ c) by done.
  apply deliveries_fmap_Deliver.
Qed.





Lemma changeLanguage_spec cfg g c rid r l :
  l ∈ supported cfg →
  room_of g c = Some (rid, r) →
  ∃ g' effs,
    changeLanguage cfg c l g = inr (g', effs)
    ∧ rooms g' = <[rid := mkRoom (code r) l (members r)]> (rooms g)
    ∧ presence g' = presence g
    ∧ deliveries effs
      = (λ p, (connectionId p, LanguageUpdate l)) <$> without c (members r).
Proof.
  intros Hl Hroom. unfold changeLanguage, is_supported.
  rewrite bool_decide_eq_true_2 by done. simpl. rewrite Hroom.
  eexists _, _. split; [done|]. repeat split. simpl.
  erewrite deliveries_broadcast_but; [|simpl; apply lookup_insert_eq]. done.
Qed.




End dispatcher.

(** C6. A language outside the supported set is refused with
    UnsupportedLanguage: the registry, hence the room's language, is what it
    was, and nothing is delivered or persisted. A supported language
    overwrites the language of the actor's room, touches nothing else of it,
    and is announced to the room's other members only. *)
Theorem changeLanguage_validates_then_overwrites
    (cfg : Server.Config) (c : nat) (newLanguage : string)
    (g : Server.Registry) :
  (newLanguage ∉ Server.supported cfg →
   Server.handle cfg (Server.ChangeLanguage c newLanguage) g
     = (g, [], Server.Failed Server.UnsupportedLanguage))
  ∧ (newLanguage ∈ Server.supported cfg →
     ∀ rid r, Server.room_of g c = Some (rid, r) →
     ∃ g' effs,
       Server.handle cfg (Server.ChangeLanguage c newLanguage) g
         = (g', effs, Server.Done)
       ∧ Server.rooms g'
         = <[rid := Server.mkRoom (Server.code r) newLanguage
                                  (Server.members r)]> (Server.rooms g)
       ∧ Server.presence g' = Server.presence g
       ∧ Server.deliveries effs
         = (λ p, (Server.connectionId p, Server.LanguageUpdate newLanguage))
             <$> Server.without c (Server.members r)).
Proof.
  split.
  - intros Hl. simpl. unfold Server.changeLanguage, Server.is_supported.
    by rewrite bool_decide_eq_false_2.
  - intros Hl rid r Hroom.
    destruct (changeLanguage_spec cfg g c rid r newLanguage Hl Hroom)
      as (g' & effs & H & Hrooms & Hp & Hd).
    exists g', effs. simpl. by rewrite H.
Qed.

Lemma changeLanguage_validates_then_overwrites_witness :
  Server.handle sample_config (Server.ChangeLanguage 1 "cobol") alice_and_bob
    = (alice_and_bob, [], Server.Failed Server.UnsupportedLanguage)
  ∧ ∃ g' effs,
      Server.handle sample_config (Server.ChangeLanguage 1 "java") alice_and_bob
        = (g', effs, Server.Done)
      ∧ Server.language <$> Server.rooms g' !! "r1" = Some "java"
      ∧ Server.deliveries effs = [(2, Server.LanguageUpdate "java")].
Proof.
  split.
  - apply (changeLanguage_validates_then_overwrites sample_config 1 "cobol").
    intros H. apply list_elem_of_In in H. simpl in H.
    repeat (destruct H as [H|H]; [discriminate H|]). done.
  - destruct (proj2 (changeLanguage_validates_then_overwrites sample_config 1
                       "java" alice_and_bob)) with (rid := "r1") (r := room_r1)
      as (g' & effs & H & Hrooms & _ & Hd).
    + in_list.
    + vm_compute. reflexivity.
    + exists g', effs. split; [exact H|]. split; [|exact Hd].
      rewrite Hrooms, lookup_insert_eq. reflexivity.
Defined.

(** * Properties of the autocomplete timer *)

Lemma filter_none {A} (P : A → Prop) `{∀ x, Decision (P x)} (l : list A) :
  Forall (λ x, ¬ P x) l → filter P l = [].
Proof.
  induction 1 as [|x l Hx _ IH]; [done|]. by rewrite filter_cons_False.
Qed.

Lemma Forall_filter_keep {A} (Q P : A → Prop) `{∀ x, Decision (P x)}
    (l : list A) :
  Forall Q l → Forall Q (filter P l).
Proof.
  rewrite !Forall_forall. intros HQ x [_ Hx]%list_elem_of_filter. by apply HQ.
Qed.

Section debounce.

Import Client Debounce.

Lemma NoDup_tid_filter (P : Timer → Prop) `{∀ t, Decision (P t)} l :
  NoDup (tid <$> l) → NoDup (tid <$> filter P l).
Proof.
  induction l as [|t l IH]; [done|].
  rewrite fmap_cons, NoDup_cons. intros [Hnotin Hnd].
  rewrite filter_cons. destruct (decide (P t)); [|by apply IH].
  rewrite fmap_cons, NoDup_cons. split; [|by apply IH].
  intros (t' & Heq & Hin)%list_elem_of_fmap. apply Hnotin.
  apply list_elem_of_fmap. exists t'. split; [done|].
  by apply list_elem_of_filter in Hin as [_ ?].
Qed.

Lemma named_by_ref_at_most_one (r : option nat) (l : list Timer) :
  NoDup (tid <$> l) →
  Forall (λ t, is_autocomplete t = true → r = Some (tid t)) l →
  length (filter (λ t, is_autocomplete t = true) l) ≤ 1.
Proof.
  induction l as [|t l IH]; [simpl; lia|].
  rewrite fmap_cons, NoDup_cons, Forall_cons. intros [Hnotin Hnd] [Ht Hl].
  rewrite filter_cons.
  destruct (decide (is_autocomplete t = true)) as [Ha|]; [|by apply IH].
  rewrite filter_none; [simpl; lia|].
  apply Forall_forall. intros t' Hin Ha'. apply Hnotin.
  rewrite Forall_forall in Hl. specialize (Hl t' Hin Ha').
  specialize (Ht Ha). apply list_elem_of_fmap. exists t'.
  split; [congruence|done].
Qed.

Lemma wf_pending_at_most_one st : wf st → length (pending_autocomplete st) ≤ 1.
Proof.
  intros (_ & _ & Hnd & Href).
  by apply (named_by_ref_at_most_one (autocompleteTimerRef st)).
Qed.

Lemma wf_init : wf init.
Proof. unfold wf. simpl. repeat split; [lia|constructor..]. Qed.

(** *** Timers running *)

Lemma run_callback_frame c st :
  let st' := (run_callback c st).1 in
  editorRef st' = editorRef st
  ∧ autocompleteTimerRef st' = autocompleteTimerRef st
  ∧ now st' = now st
  ∧ next_timer st' = next_timer st
  ∧ timers st' = timers st.
Proof.
  destruct c; simpl; try done.
  destruct (editorRef st) eqn:E; simpl; by rewrite ?E.
Qed.

Lemma run_callback_fetched t st :
  fetched (run_callback (cb t) st).2 = request_of st t.
Proof.
  unfold request_of. destruct (cb t); simpl; try done.
  by destruct (editorRef st).
Qed.

Lemma run_callbacks_spec l st :
  let st' := (run_callbacks l st).1 in
  editorRef st' = editorRef st
  ∧ autocompleteTimerRef st' = autocompleteTimerRef st
  ∧ now st' = now st
  ∧ next_timer st' = next_timer st
  ∧ timers st' = timers st
  ∧ fetched (run_callbacks l st).2 = l ≫= request_of st.
Proof.
  revert st. induction l as [|t l IH]; intros st; [done|]. simpl.
  pose proof (run_callback_frame (cb t) st) as (He & Hr & Hn & Hx & Ht).
  pose proof (run_callback_fetched t st) as Hf.
  destruct (run_callback (cb t) st) as [st1 e1]. simpl in *.
  specialize (IH st1) as (He' & Hr' & Hn' & Hx' & Ht' & Hf').
  destruct (run_callbacks l st1) as [st2 e2]. simpl in *.
  repeat split; try congruence.
  rewrite fetched_app, Hf, Hf'. f_equal.
  apply list_bind_ext; [|done]. intros t'. unfold request_of. by rewrite He.
Qed.

Lemma insert_by_due_perm t l : insert_by_due t l ≡ₚ t :: l.
Proof.
  induction l as [|u l IH]; [done|]. simpl.
  destruct (due t <=? due u); [done|]. rewrite IH. apply Permutation_swap.
Qed.

Lemma fire_order_perm l : fire_order l ≡ₚ l.
Proof.
  induction l as [|t l IH]; [done|]. unfold fire_order in *. simpl.
  by rewrite insert_by_due_perm, IH.
Qed.

Lemma requests_of_autocomplete_only st l :
  l ≫= request_of st
  = filter (λ t, is_autocomplete t = true) l ≫= request_of st.
Proof.
  induction l as [|t l IH]; [done|]. rewrite bind_cons, filter_cons.
  destruct (decide (is_autocomplete t = true)) as [Ha|Ha].
  - by rewrite bind_cons, IH.
  - rewrite IH. assert (request_of st t = []) as ->; [|done].
    unfold request_of, is_autocomplete in *. by destruct (cb t).
Qed.

Lemma advance_spec d st :
  wf st →
  let st' := (advance d st).1 in
  wf st'
  ∧ now st' = now st + d
  ∧ editorRef st' = editorRef st
  ∧ autocompleteTimerRef st' = autocompleteTimerRef st
  ∧ timers st' = filter (λ t, now st + d < due t) (timers st)
  ∧ fetched (advance d st).2
    = filter (λ t, due t ≤ now st + d) (pending_autocomplete st)
        ≫= request_of st.
Proof.
  intros Hwf. pose proof (wf_pending_at_most_one st Hwf) as Hone.
  destruct Hwf as (Hnext & Hids & Hnd & Href). unfold advance.
  match goal with |- context [run_callbacks ?l ?s] =>
    pose proof (run_callbacks_spec l s) as (He & Hr & Hn & Hx & Ht & Hf);
    destruct (run_callbacks l s) as [st1 e1] end.
  simpl in *. repeat split; try done.
  - lia.
  - rewrite Ht, Hx. by apply Forall_filter_keep.
  - rewrite Ht. by apply NoDup_tid_filter.
  - rewrite Ht, Hr. by apply Forall_filter_keep.
  - rewrite Hf, requests_of_autocomplete_only.
    set (ready := filter (λ t, due t ≤ now st + d) (timers st)).
    assert (filter (λ t, is_autocomplete t = true) (fire_order ready)
            = filter (λ t, due t ≤ now st + d) (pending_autocomplete st))
      as ->; [|done].
    assert (filter (λ t, is_autocomplete t = true) (fire_order ready)
            ≡ₚ filter (λ t, due t ≤ now st + d) (pending_autocomplete st))
      as Hperm.
    { rewrite fire_order_perm. unfold ready, pending_autocomplete.
      rewrite !list_filter_filter. apply reflexive_eq.
      apply list_filter_iff. tauto. }
    pose proof (length_filter (λ t, due t ≤ now st + d)
                  (pending_autocomplete st)) as Hlen.
    destruct (filter (λ t, due t ≤ now st + d) (pending_autocomplete st))
      as [|t [|t' l]].
    + by apply Permutation_nil_r.
    + by apply Permutation_singleton_r.
    + simpl in Hlen. lia.
Qed.

(** *** Events *)

Lemma wf_ext st st' :
  next_timer st' = next_timer st → timers st' = timers st →
  autocompleteTimerRef st' = autocompleteTimerRef st →
  wf st → wf st'.
Proof. unfold wf. by intros -> -> ->. Qed.

Lemma with_view_spec f st :
  wf st →
  wf (with_view f st)
  ∧ pending_autocomplete (with_view f st) = pending_autocomplete st
  ∧ now (with_view f st) = now st.
Proof. intros Hwf. split; [by apply (wf_ext st)|done]. Qed.

Lemma setTimeout_spec c delay st :
  is_autocomplete (mkTimer 0 0 c) = false →
  wf st →
  wf (setTimeout c delay st).2
  ∧ pending_autocomplete (setTimeout c delay st).2 = pending_autocomplete st
  ∧ now (setTimeout c delay st).2 = now st.
Proof.
  intros Hc (Hnext & Hids & Hnd & Href). unfold wf, pending_autocomplete.
  simpl. repeat split.
  - lia.
  - apply Forall_app. split.
    + eapply Forall_impl; [exact Hids|]. simpl. lia.
    + apply Forall_singleton. simpl. lia.
  - rewrite fmap_app. apply NoDup_app. repeat split; [done| |apply NoDup_singleton].
    intros i (t & -> & Hin)%list_elem_of_fmap Hi.
    apply list_elem_of_singleton in Hi. simpl in Hi.
    rewrite Forall_forall in Hids. specialize (Hids t Hin). lia.
  - apply Forall_app. split; [done|]. apply Forall_singleton.
    unfold is_autocomplete in *. simpl in *. congruence.
  - rewrite filter_app, filter_cons_False, filter_nil, app_nil_r; [done|].
    unfold is_autocomplete in *. simpl in *. congruence.
Qed.

Lemma step_other_spec a st :
  is_edit a = false → wf st →
  wf (step a st).1
  ∧ pending_autocomplete (step a st).1 = pending_autocomplete st
  ∧ now (step a st).1 = now st
  ∧ fetched (step a st).2 = [].
Proof.
  intros Ha Hwf.
  assert (∀ f c delay, is_autocomplete (mkTimer 0 0 c) = false →
            wf (setTimeout c delay (with_view f st)).2
            ∧ pending_autocomplete (setTimeout c delay (with_view f st)).2
              = pending_autocomplete st
            ∧ now (setTimeout c delay (with_view f st)).2 = now st) as Hset.
  { intros f c delay Hc.
    destruct (with_view_spec f st Hwf) as (Hwf1 & Hp1 & Hn1).
    destruct (setTimeout_spec c delay _ Hc Hwf1) as (Hwf2 & Hp2 & Hn2).
    split; [done|]. split; congruence. }
  destruct a as [| | | | | | | | | | | | | | |r]; try discriminate Ha; simpl;
    try (split; [by apply (wf_ext st)|done]).
  - unfold joinRoom. case_match; simpl; (split; [by apply (wf_ext st)|done]).
  - destruct (Hset (setCopySuccess "Copied!") ClearCopySuccess 2000)
      as (H1 & H2 & _); [done|]. split; [exact H1|]. split; [exact H2|done].
  - destruct (editorRef st); simpl; (split; [by apply (wf_ext st)|done]).
  - destruct (Hset (setTyping (slice_0_8 user +:+ "... is Typing"))
                ClearTyping 2000) as (H1 & H2 & _); [done|].
    split; [exact H1|]. split; [exact H2|done].
  - destruct r as [data|]; simpl; [|done].
    destruct (get_prop data "suggestion") as [s|]; simpl; [|done].
    destruct (truthy s); simpl; [|done].
    destruct (Hset (setSuggestion s) ClearSuggestion 5000) as (H1 & H2 & _);
      [done|]. split; [exact H1|]. split; [exact H2|done].
Qed.

Lemma clear_previous_spec st :
  wf st →
  let st' :=
    match autocompleteTimerRef st with
    | Some id => if negb (id =? 0) then clearTimeout id st else st
    | None => st
    end in
  wf st'
  ∧ pending_autocomplete st' = []
  ∧ view st' = view st ∧ editorRef st' = editorRef st
  ∧ now st' = now st ∧ next_timer st' = next_timer st.
Proof.
  intros (Hnext & Hids & Hnd & Href). unfold pending_autocomplete.
  destruct st as [v ed ref nw nx ts]. simpl in *.
  rewrite Forall_forall in Href. rewrite Forall_forall in Hids.
  destruct ref as [id|]; [destruct (Nat.eqb_spec id 0) as [->|Hid]|]; simpl.
  - split; [by unfold wf; rewrite !Forall_forall|]. split; [|done].
    apply filter_none, Forall_forall. intros t Hin Ha.
    specialize (Href t Hin Ha). specialize (Hids t Hin). simplify_eq. lia.
  - split; [|split; [|done]].
    + unfold wf. simpl. repeat split; [done| | |].
      * apply Forall_filter_keep. by apply Forall_forall.
      * by apply NoDup_tid_filter.
      * apply Forall_filter_keep. by apply Forall_forall.
    + apply filter_none, Forall_forall.
      intros t [Hne Hin]%list_elem_of_filter Ha.
      specialize (Href t Hin Ha). simplify_eq.
  - split; [by unfold wf; rewrite !Forall_forall|]. split; [|done].
    apply filter_none, Forall_forall. intros t Hin Ha.
    by specialize (Href t Hin Ha).
Qed.

Lemma arm_spec newCode lang st :
  wf st → pending_autocomplete st = [] →
  let st' := set_autocompleteTimerRef
               (Some (setTimeout (Autocomplete newCode lang) 600 st).1)
               (setTimeout (Autocomplete newCode lang) 600 st).2 in
  wf st'
  ∧ pending_autocomplete st'
    = [mkTimer (next_timer st) (now st + 600) (Autocomplete newCode lang)]
  ∧ view st' = view st ∧ editorRef st' = editorRef st ∧ now st' = now st.
Proof.
  intros (Hnext & Hids & Hnd & Href) Hnone.
  unfold wf, pending_autocomplete in *. simpl. repeat split.
  - lia.
  - apply Forall_app. split.
    + eapply Forall_impl; [exact Hids|]. simpl. lia.
    + apply Forall_singleton. simpl. lia.
  - rewrite fmap_app. apply NoDup_app.
    repeat split; [done| |apply NoDup_singleton].
    intros i (t & -> & Hin)%list_elem_of_fmap Hi.
    apply list_elem_of_singleton in Hi. simpl in Hi.
    rewrite Forall_forall in Hids. specialize (Hids t Hin). lia.
  - apply Forall_app. split; [|by apply Forall_singleton].
    apply Forall_forall. intros t Hin Ha. exfalso.
    eapply (filter_nil_not_elem_of _ _ t Hnone); done.
  - by rewrite filter_app, Hnone.
Qed.

Lemma handleCodeChange_spec newCode st :
  wf st →
  let st' := (handleCodeChange newCode st).1 in
  wf st'
  ∧ pending_autocomplete st'
    = [mkTimer (next_timer st) (now st + 600)
               (Autocomplete newCode (language (view st)))]
  ∧ now st' = now st
  ∧ editorRef st' = editorRef st
  ∧ language (view st') = language (view st)
  ∧ fetched (handleCodeChange newCode st).2 = [].
Proof.
  intros Hwf. unfold handleCodeChange. cbv zeta.
  destruct (with_view_spec (setCode newCode) st Hwf) as (Hwf1 & _ & _).
  destruct (clear_previous_spec _ Hwf1) as (Hwf2 & Hp2 & Hv2 & He2 & Hn2 & Hx2).
  match type of Hwf2 with wf ?s => set (st2 := s) in * end.
  destruct (arm_spec newCode (language (view st)) st2 Hwf2 Hp2)
    as (Hwf3 & Hp3 & Hv3 & He3 & Hn3).
  destruct (setTimeout (Autocomplete newCode (language (view st))) 600 st2)
    as [id st3] eqn:Hst3. simpl in *.
  split; [exact Hwf3|]. rewrite Hp3, Hn3, He3, Hv3, Hv2, He2, Hn2, Hx2.
  by destruct st.
Qed.

Local Arguments handleCodeChange : simpl never.
Local Arguments step : simpl never.

Lemma step_edit newCode st :
  step (EditorChange newCode) st = handleCodeChange newCode st.
Proof. done. Qed.

Lemma wf_tick da st : wf st → wf (tick da st).1.
Proof.
  intros Hwf. unfold tick.
  destruct (advance_spec da.1 st Hwf) as (Hwf1 & _).
  destruct (advance da.1 st) as [st1 e1]. simpl in Hwf1.
  destruct (is_edit da.2) eqn:Ha.
  - destruct da.2; try discriminate Ha. rewrite step_edit.
    destruct (handleCodeChange_spec newCode st1 Hwf1) as (Hwf2 & _).
    by destruct (handleCodeChange newCode st1).
  - destruct (step_other_spec da.2 st1 Ha Hwf1) as (Hwf2 & _).
    by destruct (step da.2 st1).
Qed.

Lemma wf_run tr st : wf st → wf (run tr st).1.
Proof.
  revert st. induction tr as [|da tr IH]; intros st Hwf; [done|]. simpl.
  pose proof (wf_tick da st Hwf) as Hwf1.
  destruct (tick da st) as [st1 e1]. specialize (IH st1 Hwf1).
  by destruct (run tr st1).
Qed.

(** *** A burst of edits *)

Lemma pending_after_advance d st :
  wf st →
  pending_autocomplete (advance d st).1
  = filter (λ t, now st + d < due t) (pending_autocomplete st).
Proof.
  intros Hwf. destruct (advance_spec d st Hwf) as (_ & _ & _ & _ & Ht & _).
  unfold pending_autocomplete. rewrite Ht, !list_filter_filter.
  apply list_filter_iff. tauto.
Qed.

Lemma idle_quiet tr st :
  wf st → pending_autocomplete st = [] →
  Forall (λ da, is_edit da.2 = false) tr →
  fetched (run tr st).2 = [].
Proof.
  revert st. induction tr as [|da tr IH]; intros st Hwf Hidle Hno; [done|].
  apply Forall_cons in Hno as [Ha Hno]. simpl. unfold tick.
  pose proof (pending_after_advance da.1 st Hwf) as Hp1.
  destruct (advance_spec da.1 st Hwf) as (Hwf1 & _ & _ & _ & _ & Hf1).
  destruct (advance da.1 st) as [st1 e1]. simpl in *.
  rewrite Hidle in Hp1, Hf1. simpl in Hf1.
  destruct (step_other_spec da.2 st1 Ha Hwf1) as (Hwf2 & Hp2 & _ & Hf2).
  destruct (step da.2 st1) as [st2 e2]. simpl in *.
  specialize (IH st2 Hwf2). rewrite Hp2, Hp1 in IH.
  specialize (IH eq_refl Hno). destruct (run tr st2) as [st3 e3]. simpl in *.
  by rewrite !fetched_app, Hf1, Hf2, IH.
Qed.

Lemma spaced_late_no_edit e tr :
  600 ≤ e → spaced e tr → Forall (λ da, is_edit da.2 = false) tr.
Proof.
  revert e. induction tr as [|[d a] tr IH]; intros e He Hs; [constructor|].
  simpl in Hs. destruct (is_edit a) eqn:Ha; [lia|].
  constructor; [done|]. apply (IH (e + d)); [lia|done].
Qed.

Lemma last_edit_other c d a tr :
  is_edit a = false → last_edit c ((d, a) :: tr) = last_edit c tr.
Proof. by destruct a. Qed.

Lemma last_edit_no_edit c tr :
  Forall (λ da, is_edit da.2 = false) tr → last_edit c tr = c.
Proof.
  induction 1 as [|[d a] tr Ha _ IH]; [done|].
  by rewrite last_edit_other.
Qed.

Lemma request_of_code st t c lang b :
  cb t = Autocomplete c lang → b ∈ request_of st t →
  get_prop b "code" = Some (JStr c).
Proof.
  unfold request_of. intros ->. destruct (editorRef st); [|by inversion 1].
  by intros ->%list_elem_of_singleton.
Qed.

Lemma request_of_at_most_one st t : length (request_of st t) ≤ 1.
Proof.
  unfold request_of. destruct (cb t); simpl; try lia.
  destruct (editorRef st); simpl; lia.
Qed.

Lemma burst_sends_last e c st tr :
  wf st → armed e c st → spaced e tr →
  length (fetched (run tr st).2) ≤ 1
  ∧ ∀ b, b ∈ fetched (run tr st).2 →
      get_prop b "code" = Some (JStr (last_edit c tr)).
Proof.
  revert e c st. induction tr as [|[d a] tr IH]; intros e c st Hwf Harm Hs.
  { simpl. split; [lia|]. by inversion 1. }
  destruct Harm as (t & lang & Hp & Hcb & Hdue).
  cbn [run]. unfold tick. cbn [fst snd]. simpl in Hs.
  pose proof (pending_after_advance d st Hwf) as Hp1.
  destruct (advance_spec d st Hwf) as (Hwf1 & Hn1 & _ & _ & _ & Hf1).
  destruct (advance d st) as [st1 e1]. cbn [fst snd] in *.
  rewrite Hp in Hp1, Hf1.
  destruct (decide (e + d < 600)) as [Hlt|Hge].
  - (* the timer is not due yet *)
    rewrite filter_cons_False, filter_nil in Hf1 by lia. simpl in Hf1.
    rewrite filter_cons_True, filter_nil in Hp1 by lia.
    destruct (is_edit a) eqn:Ha.
    + destruct a; try discriminate Ha. rewrite step_edit.
      destruct Hs as [_ Hs]. simpl last_edit.
      destruct (handleCodeChange_spec newCode st1 Hwf1)
        as (Hwf2 & Hp2 & Hn2 & _ & _ & Hf2).
      destruct (handleCodeChange newCode st1) as [st2 e2]. cbn [fst snd] in *.
      destruct (IH 0 newCode st2 Hwf2) as [IH1 IH2]; [|done|].
      { eexists _, _. split; [exact Hp2|]. split; [done|]. simpl. lia. }
      destruct (run tr st2) as [st3 e3]. cbn [fst snd] in *.
      rewrite !fetched_app, Hf1, Hf2. done.
    + destruct (step_other_spec a st1 Ha Hwf1) as (Hwf2 & Hp2 & Hn2 & Hf2).
      destruct (step a st1) as [st2 e2]. cbn [fst snd] in *.
      destruct (IH (e + d) c st2 Hwf2) as [IH1 IH2]; [|done|].
      { exists t, lang. rewrite Hp2, Hp1. split; [done|]. split; [done|]. lia. }
      rewrite last_edit_other by done.
      destruct (run tr st2) as [st3 e3]. cbn [fst snd] in *.
      rewrite !fetched_app, Hf1, Hf2. done.
  - (* the timer has run; no edit may follow *)
    destruct (is_edit a) eqn:Ha; [lia|].
    rewrite filter_cons_True, filter_nil in Hf1 by lia.
    rewrite filter_cons_False, filter_nil in Hp1 by lia.
    simpl in Hf1. rewrite app_nil_r in Hf1.
    destruct (step_other_spec a st1 Ha Hwf1) as (Hwf2 & Hp2 & Hn2 & Hf2).
    destruct (step a st1) as [st2 e2]. cbn [fst snd] in *.
    pose proof (spaced_late_no_edit (e + d) tr ltac:(lia) Hs) as Hno.
    pose proof (idle_quiet tr st2 Hwf2 ltac:(congruence) Hno) as Hquiet.
    rewrite last_edit_other, (last_edit_no_edit _ _ Hno) by done.
    destruct (run tr st2) as [st3 e3]. cbn [fst snd] in *.
    rewrite !fetched_app, Hf1, Hf2, Hquiet, !app_nil_r.
    split; [apply request_of_at_most_one|].
    intros b. by apply request_of_code with lang.
Qed.

End debounce.

(** C10. In every state the client reaches, at most one autocomplete request
    is pending, that is scheduled and not yet sent. An edit cancels the timer
    of the edit before it and leaves its own as the only one, due 600 ms
    later. Hence, in a burst in which every edit follows the previous one by
    less than 600 ms (whatever else happens in between, and whatever follows
    the burst short of another edit), at most one request is sent, and it
    carries the code of the last edit; left alone for 600 ms with the editor
    mounted, an edit's timer does send its request. *)
Theorem autocomplete_is_debounced (history : list (nat * Client.Action)) :
  let st := (Client.run history Client.init).1 in
  length (Client.pending_autocomplete st) ≤ 1
  ∧ ∀ d newCode,
      let st1 := (Client.tick (d, Client.EditorChange newCode) st).1 in
      (∃ t, Client.pending_autocomplete st1 = [t]
            ∧ Client.due t = Client.now st1 + 600
            ∧ Client.cb t
              = Client.Autocomplete newCode (Client.language (Client.view st1)))
      ∧ (∀ tr, Debounce.spaced 0 tr →
           let sent := Client.fetched (Client.run tr st1).2 in
           length sent ≤ 1
           ∧ ∀ b, b ∈ sent →
               get_prop b "code" = Some (JStr (Debounce.last_edit newCode tr)))
      ∧ (∀ wait editor,
           600 ≤ wait → Client.editorRef st1 = Some editor →
           Client.fetched (Client.advance wait st1).2
           = [Client.autocomplete_body newCode (Client.cursor editor)
                (Client.language (Client.view st1))]).
Proof.
  intros st.
  assert (Debounce.wf st) as Hwf by apply wf_run, wf_init.
  split; [by apply wf_pending_at_most_one|].
  intros d newCode st1. unfold Client.tick in st1. cbn [fst snd] in st1.
  destruct (advance_spec d st Hwf) as (Hwf0 & _).
  destruct (Client.advance d st) as [st0 e0]. cbn [fst] in Hwf0.
  change (Client.step (Client.EditorChange newCode) st0)
    with (Client.handleCodeChange newCode st0) in st1.
  destruct (handleCodeChange_spec newCode st0 Hwf0)
    as (Hwf1 & Hp1 & Hn1 & _ & Hl1 & _).
  destruct (Client.handleCodeChange newCode st0) as [st1' e1].
  cbn [fst snd] in *. subst st1.
  rewrite <- Hl1, <- Hn1 in Hp1.
  split; [|split].
  - eexists. split; [exact Hp1|]. done.
  - intros tr Hs. apply (burst_sends_last 0); [done| |done].
    eexists _, _. split; [exact Hp1|]. split; [done|]. simpl. lia.
  - intros wait editor Hwait Hed.
    destruct (advance_spec wait st1' Hwf1) as (_ & _ & _ & _ & _ & Hf).
    rewrite Hf, Hp1, filter_cons_True by (simpl; lia).
    rewrite filter_nil. unfold Debounce.request_of. simpl. by rewrite Hed.
Qed.

Lemma autocomplete_is_debounced_witness :
  let st1 := (Client.run [(0, Client.EditorMounted (Client.mkEditor 3));
                          (10, Client.EditorChange "a")] Client.init).1 in
  length (Client.fetched
            (Client.run [(100, Client.EditorChange "ab");
                         (599, Client.EditorChange "abc");
                         (700, Client.ClickCopy)] st1).2) ≤ 1
  ∧ Client.fetched (Client.advance 600 st1).2
    = [Client.autocomplete_body "a" 3 "javascript"].
Proof.
  destruct (autocomplete_is_debounced
              [(0, Client.EditorMounted (Client.mkEditor 3))])
    as [_ H].
  destruct (H 10 "a") as (_ & Hburst & Hfire).
  split.
  - apply (Hburst [(100, Client.EditorChange "ab");
                   (599, Client.EditorChange "abc");
                   (700, Client.ClickCopy)]).
    simpl. lia.
  - apply (Hfire 600 (Client.mkEditor 3)); [lia|reflexivity].
Defined.

(** * Membership: the registry against the history of requests *)

Section membership.

Import Server System.

Implicit Types (log : list (string * Participant)) (g : Registry).





















(** *** What the clients hold *)









(** *** Membership broadcasts, in closed form *)












End membership.









(** * Transient displays and the timers that clear them *)

Section transient.

Import Client Debounce Page Timers.

Local Arguments handleCodeChange : simpl never.

Lemma clears_not_autocomplete k t :
  clears k (cb t) = true → is_autocomplete t = false.
Proof. unfold is_autocomplete. by destruct k, (cb t). Qed.

Lemma run_callback_never_shows k c st :
  shown k (view (run_callback c st).1) = true → shown k (view st) = true.
Proof.
  destruct c; simpl; try (by destruct k).
  by destruct (editorRef st).
Qed.

Lemma run_callback_clears k c st :
  clears k c = true → shown k (view (run_callback c st).1) = false.
Proof. by destruct k, c. Qed.

Lemma run_callbacks_never_show k l st :
  shown k (view (run_callbacks l st).1) = true → shown k (view st) = true.
Proof.
  revert st. induction l as [|t l IH]; intros st; [done|]. simpl.
  pose proof (run_callback_never_shows k (cb t) st) as Hc.
  destruct (run_callback (cb t) st) as [st1 e1]. specialize (IH st1).
  destruct (run_callbacks l st1) as [st2 e2]. simpl in *. auto.
Qed.

Lemma run_callbacks_clear k l st t :
  t ∈ l → clears k (cb t) = true →
  shown k (view (run_callbacks l st).1) = false.
Proof.
  revert st. induction l as [|u l IH]; intros st Hin Hk; [by inversion Hin|].
  simpl. pose proof (run_callback_clears k (cb u) st) as Hc.
  destruct (run_callback (cb u) st) as [st1 e1].
  pose proof (run_callbacks_never_show k l st1) as Hn.
  specialize (IH st1). destruct (run_callbacks l st1) as [st2 e2].
  simpl in *. apply elem_of_cons in Hin as [<-|Hin].
  - specialize (Hc Hk). destruct (shown k (view st2)); [|done].
    by rewrite Hn in Hc.
  - by apply IH.
Qed.

Lemma advance_never_shows k d st :
  shown k (view (advance d st).1) = true → shown k (view st) = true.
Proof.
  unfold advance. intros H. by apply run_callbacks_never_show in H.
Qed.

Lemma advance_clears k d st :
  Exists (λ t, clears k (cb t) = true ∧ due t ≤ now st + d) (timers st) →
  shown k (view (advance d st).1) = false.
Proof.
  intros (t & Hin & Hk & Hdue)%Exists_exists. unfold advance.
  apply (run_callbacks_clear k _ _ t); [|done].
  rewrite fire_order_perm. by apply list_elem_of_filter.
Qed.

Lemma advance_timers d st :
  timers (advance d st).1 = filter (λ t, now st + d < due t) (timers st)
  ∧ now (advance d st).1 = now st + d
  ∧ next_timer (advance d st).1 = next_timer st
  ∧ autocompleteTimerRef (advance d st).1 = autocompleteTimerRef st.
Proof.
  unfold advance.
  match goal with |- context [run_callbacks ?l ?s] =>
    pose proof (run_callbacks_spec l s) as (_ & Hr & Hn & Hx & Ht & _);
    destruct (run_callbacks l s) as [st1 e1] end.
  simpl in *. by rewrite Ht, Hn, Hx, Hr.
Qed.

Lemma advance_covered k D d st :
  covered k D st → covered k D (advance d st).1.
Proof.
  intros Hcov Hshown.
  pose proof (advance_never_shows k d st Hshown) as Hbefore.
  destruct (advance_timers d st) as (Ht & _).
  apply Exists_exists in Hcov as (t & Hin & Hk & Hdue); [|done].
  destruct (decide (due t ≤ now st + d)) as [Hfired|Hlater].
  - rewrite advance_clears in Hshown; [done|].
    apply Exists_exists. by exists t.
  - apply Exists_exists. exists t. rewrite Ht.
    split; [|done]. apply list_elem_of_filter. split; [lia|done].
Qed.

Lemma covered_mono k D D' st : D ≤ D' → covered k D st → covered k D' st.
Proof.
  intros HD Hcov Hs. eapply Exists_impl; [by apply Hcov|].
  simpl. intros t [? ?]. split; [done|lia].
Qed.

(** The shape of the timer queue after an event. *)

Lemma step_other_shape a st :
  is_edit a = false →
  ∃ extra,
    timers (step a st).1 = timers st ++ extra
    ∧ Forall (λ t, tid t = next_timer st ∧ is_autocomplete t = false
                   ∧ now st < due t) extra
    ∧ next_timer st ≤ next_timer (step a st).1
    ∧ autocompleteTimerRef (step a st).1 = autocompleteTimerRef st
    ∧ now (step a st).1 = now st.
Proof.
  intros Ha.
  assert (∀ st', timers st' = timers st → next_timer st' = next_timer st →
            autocompleteTimerRef st' = autocompleteTimerRef st →
            now st' = now st →
            ∃ extra,
              timers st' = timers st ++ extra
              ∧ Forall (λ t, tid t = next_timer st ∧ is_autocomplete t = false
                             ∧ now st < due t) extra
              ∧ next_timer st ≤ next_timer st'
              ∧ autocompleteTimerRef st' = autocompleteTimerRef st
              ∧ now st' = now st) as Hsame.
  { intros st' Ht Hx Hr Hn. exists []. rewrite app_nil_r.
    repeat split; [done|constructor|lia|done|done]. }
  assert (∀ f c delay, is_autocomplete (mkTimer 0 0 c) = false → 0 < delay →
            ∃ extra,
              timers (setTimeout c delay (with_view f st)).2
              = timers st ++ extra
              ∧ Forall (λ t, tid t = next_timer st ∧ is_autocomplete t = false
                             ∧ now st < due t) extra
              ∧ next_timer st
                ≤ next_timer (setTimeout c delay (with_view f st)).2
              ∧ autocompleteTimerRef (setTimeout c delay (with_view f st)).2
                = autocompleteTimerRef st
              ∧ now (setTimeout c delay (with_view f st)).2 = now st) as Hset.
  { intros f c delay Hc Hd. eexists. simpl. split; [done|].
    repeat split; [|lia]. apply Forall_singleton. simpl.
    repeat split; [done|lia]. }
  destruct a as [| | | | | | | | | | | | | | |r]; try discriminate Ha; simpl;
    try (by apply Hsame).
  - unfold joinRoom. case_match; by apply Hsame.
  - by apply (Hset (setCopySuccess "Copied!") ClearCopySuccess 2000); [|lia].
  - destruct (editorRef st); by apply Hsame.
  - by apply (Hset (setTyping (slice_0_8 user +:+ "... is Typing"))
                   ClearTyping 2000); [|lia].
  - destruct r as [data|]; simpl; [|by apply Hsame].
    destruct (get_prop data "suggestion") as [s|]; simpl; [|by apply Hsame].
    destruct (truthy s); simpl; [|by apply Hsame].
    by apply (Hset (setSuggestion s) ClearSuggestion 5000); [|lia].
Qed.

Lemma handleCodeChange_shape newCode st :
  ∃ kept,
    timers (handleCodeChange newCode st).1
    = kept ++ [mkTimer (next_timer st) (now st + 600)
                       (Autocomplete newCode (language (view st)))]
    ∧ (kept = timers st
       ∨ ∃ id, autocompleteTimerRef st = Some id
               ∧ kept = filter (λ t, tid t ≠ id) (timers st))
    ∧ next_timer (handleCodeChange newCode st).1 = S (next_timer st)
    ∧ autocompleteTimerRef (handleCodeChange newCode st).1
      = Some (next_timer st)
    ∧ now (handleCodeChange newCode st).1 = now st.
Proof.
  unfold handleCodeChange. destruct st as [v ed ref nw nx ts]. simpl.
  destruct ref as [id|]; [destruct (id =? 0)|]; simpl;
    eexists; (split; [reflexivity|]); repeat split; eauto.
Qed.

Lemma step_now a st : now (step a st).1 = now st.
Proof.
  destruct (is_edit a) eqn:Ha.
  - destruct a; try discriminate Ha.
    by destruct (handleCodeChange_shape newCode st) as (? & _ & _ & _ & _ & ?).
  - by destruct (step_other_shape a st Ha) as (? & _ & _ & _ & _ & ?).
Qed.

Lemma step_keeps_timers a st t :
  ref_wf st → t ∈ timers st → is_autocomplete t = false →
  t ∈ timers (step a st).1.
Proof.
  intros Href Hin Ht. destruct (is_edit a) eqn:Ha.
  - destruct a; try discriminate Ha.
    destruct (handleCodeChange_shape newCode st)
      as (kept & Heq & Hkept & _).
    change (step (EditorChange newCode) st) with (handleCodeChange newCode st).
    rewrite Heq. apply elem_of_app. left.
    destruct Hkept as [->|(id & Hid & ->)]; [done|].
    apply list_elem_of_filter. split; [|done]. intros Htid.
    destruct (Href id Hid) as [_ Hauto]. rewrite Forall_forall in Hauto.
    specialize (Hauto t Hin Htid). congruence.
  - destruct (step_other_shape a st Ha) as (extra & -> & _).
    apply elem_of_app. by left.
Qed.

Lemma ref_wf_advance d st : ref_wf st → ref_wf (advance d st).1.
Proof.
  intros Href id. destruct (advance_timers d st) as (-> & _ & -> & ->).
  intros Hid. destruct (Href id Hid) as [Hlt Hauto].
  split; [done|]. by apply Forall_filter_keep.
Qed.

Lemma ref_wf_step a st : wf st → ref_wf st → ref_wf (step a st).1.
Proof.
  intros (_ & Hids & _) Href id. destruct (is_edit a) eqn:Ha.
  - destruct a; try discriminate Ha.
    destruct (handleCodeChange_shape newCode st)
      as (kept & Heq & Hkept & Hx & Hr & _).
    change (step (EditorChange newCode) st) with (handleCodeChange newCode st).
    rewrite Heq, Hx, Hr. intros [= <-]. split; [lia|].
    apply Forall_app. split; [|by apply Forall_singleton].
    assert (Forall (λ t, 1 ≤ tid t ∧ tid t < next_timer st) kept) as Hk.
    { destruct Hkept as [->|(id & _ & ->)];
        [done|by apply Forall_filter_keep]. }
    eapply Forall_impl; [exact Hk|]. simpl. lia.
  - destruct (step_other_shape a st Ha) as (extra & -> & Hextra & Hx & -> & _).
    intros Hid. destruct (Href id Hid) as [Hlt Hauto]. split; [lia|].
    apply Forall_app. split; [done|].
    eapply Forall_impl; [exact Hextra|]. simpl. lia.
Qed.

Lemma ref_wf_init : ref_wf init.
Proof. by intros id. Qed.

Lemma ref_wf_run tr st : wf st → ref_wf st → ref_wf (run tr st).1.
Proof.
  revert st. induction tr as [|da tr IH]; intros st Hwf Href; [done|]. simpl.
  pose proof (wf_tick da st Hwf) as Hwf1.
  assert (ref_wf (tick da st).1) as Href1.
  { unfold tick. destruct (advance_spec da.1 st Hwf) as (Hwf0 & _).
    pose proof (ref_wf_advance da.1 st Href) as Href0.
    destruct (advance da.1 st) as [st0 e0]. simpl in *.
    pose proof (ref_wf_step da.2 st0 Hwf0 Href0).
    by destruct (step da.2 st0). }
  destruct (tick da st) as [st1 e1]. simpl in *.
  specialize (IH st1 Hwf1 Href1). by destruct (run tr st1).
Qed.

(** What events do to the displays. *)

Lemma handleCodeChange_view newCode st :
  view (handleCodeChange newCode st).1 = setCode newCode (view st).
Proof.
  unfold handleCodeChange. destruct st as [v ed ref nw nx ts]. simpl.
  by destruct ref as [id|]; [destruct (id =? 0)|].
Qed.

Lemma step_never_shows k a st :
  sets k a = false →
  shown k (view (step a st).1) = true → shown k (view st) = true.
Proof.
  intros Hk. destruct a as [| | | | | | | | |c| | | | | |r]; simpl;
    try (by destruct k).
  - unfold joinRoom. case_match; by destruct k.
  - by destruct (editorRef st).
  - by destruct (autocompleteTimerRef st) as [id|]; [destruct (id =? 0)|];
      destruct k.
  - destruct r as [data|]; simpl; [|done].
    destruct (get_prop data "suggestion") as [s|]; simpl; [|done].
    destruct (truthy s); simpl; [|done]. by destruct k.
Qed.

Lemma step_quiet_covered k D a st :
  ref_wf st → sets k a = false → covered k D st → covered k D (step a st).1.
Proof.
  intros Href Hk Hcov Hshown.
  apply step_never_shows in Hshown; [|done].
  apply Exists_exists in Hcov as (t & Hin & Hc & Hdue); [|done].
  apply Exists_exists. exists t. split; [|done].
  apply step_keeps_timers; [done..|]. by apply (clears_not_autocomplete k).
Qed.

Lemma step_covered k a st :
  ref_wf st →
  covered k (now st + delay k) st →
  covered k (now st + delay k) (step a st).1.
Proof.
  intros Href Hcov. destruct (sets k a) eqn:Hk;
    [|by apply step_quiet_covered].
  assert (∀ f, covered k (now st + delay k)
                 (setTimeout (clearer k) (delay k) (with_view f st)).2) as Hnew.
  { intros f _. apply Exists_exists. eexists. simpl.
    split; [apply elem_of_app; right; by apply list_elem_of_singleton|].
    simpl. split; [by destruct k|lia]. }
  destruct k, a as [| | | | | | | | | | | | | | |r]; try discriminate Hk; simpl.
  - apply (Hnew (setTyping (slice_0_8 user +:+ "... is Typing"))).
  - apply (Hnew (setCopySuccess "Copied!")).
  - destruct r as [data|]; simpl; [|done].
    destruct (get_prop data "suggestion") as [s|]; simpl; [|done].
    destruct (truthy s); simpl; [|done]. apply (Hnew (setSuggestion s)).
Qed.

Lemma tick_punctual da st : punctual (tick da st).1.
Proof.
  unfold tick, punctual.
  destruct (advance_timers da.1 st) as (Ht & Hn & _).
  destruct (advance da.1 st) as [st0 e0]. simpl in *.
  assert (Forall (λ t, now st0 < due t) (timers st0)) as H0.
  { rewrite Ht, Hn. apply Forall_forall.
    by intros t [? _]%list_elem_of_filter. }
  pose proof (step_now da.2 st0) as Hnow.
  destruct (is_edit da.2) eqn:Ha.
  - destruct da.2; try discriminate Ha.
    destruct (handleCodeChange_shape newCode st0)
      as (kept & Heq & Hkept & _).
    change (step (EditorChange newCode) st0)
      with (handleCodeChange newCode st0) in *.
    destruct (handleCodeChange newCode st0) as [st1 e1]. simpl in *.
    rewrite Heq, Hnow. apply Forall_app. split.
    + destruct Hkept as [->|(id & _ & ->)];
        [done|by apply Forall_filter_keep].
    + apply Forall_singleton. simpl. lia.
  - destruct (step_other_shape da.2 st0 Ha) as (extra & Heq & Hextra & _).
    destruct (step da.2 st0) as [st1 e1]. simpl in *.
    rewrite Heq, Hnow. apply Forall_app. split; [done|].
    eapply Forall_impl; [exact Hextra|]. simpl. tauto.
Qed.

Lemma tick_covered k da st :
  wf st → ref_wf st →
  covered k (now st + delay k) st →
  covered k (now (tick da st).1 + delay k) (tick da st).1.
Proof.
  intros Hwf Href Hcov. unfold tick.
  pose proof (advance_covered k _ da.1 st Hcov) as Hcov0.
  pose proof (ref_wf_advance da.1 st Href) as Href0.
  destruct (advance_timers da.1 st) as (_ & Hn & _).
  destruct (advance da.1 st) as [st0 e0]. simpl in *.
  pose proof (step_now da.2 st0) as Hnow.
  pose proof (step_covered k da.2 st0 Href0) as Hstep.
  destruct (step da.2 st0) as [st1 e1]. simpl in *. rewrite Hnow.
  apply Hstep. eapply covered_mono; [|exact Hcov0]. lia.
Qed.

Lemma run_covered k tr st :
  wf st → ref_wf st →
  covered k (now st + delay k) st →
  covered k (now (run tr st).1 + delay k) (run tr st).1.
Proof.
  revert st. induction tr as [|da tr IH]; intros st Hwf Href Hcov; [done|].
  simpl. pose proof (wf_tick da st Hwf) as Hwf1.
  pose proof (ref_wf_run [da] st Hwf Href) as Href1. simpl in Href1.
  pose proof (tick_covered k da st Hwf Href Hcov) as Hcov1.
  destruct (tick da st) as [st1 e1]. simpl in *.
  specialize (IH st1 Hwf1 Href1 Hcov1). by destruct (run tr st1).
Qed.

Lemma run_app tr1 tr2 st :
  (run (tr1 ++ tr2) st).1 = (run tr2 (run tr1 st).1).1.
Proof.
  revert st. induction tr1 as [|da tr1 IH]; intros st; simpl.
  - by destruct (run tr2 st).
  - destruct (tick da st) as [st1 e1]. specialize (IH st1).
    destruct (run (tr1 ++ tr2) st1), (run tr1 st1) as [st2 e2]. simpl in *.
    by destruct (run tr2 st2).
Qed.



End transient.

(** X1. Whenever the typing line, the copy badge or the suggestion box is
    on the page, a timer that clears it is pending and due within the
    display's delay (2000, 2000 and 5000 ms): nothing the client shows
    transiently can stay for want of a timer. *)
Theorem transient_display_has_a_clearing_timer
    (history : list (nat * Client.Action)) (k : Page.Transient) :
  let st := (Client.run history Client.init).1 in
  Page.shown k (Client.view st) = true →
  ∃ t, t ∈ Client.timers st
       ∧ Client.cb t = Page.clearer k
       ∧ Client.now st < Client.due t ≤ Client.now st + Page.delay k.
Proof.
  intros st Hshown.
  assert (Timers.covered k (Client.now st + Page.delay k) st) as Hcov.
  { apply run_covered; [apply wf_init|apply ref_wf_init|].
    intros H. by destruct k. }
  apply Exists_exists in Hcov as (t & Hin & Hk & Hdue); [|done].
  exists t. split; [done|]. split.
  { destruct k, (Client.cb t); done. }
  split; [|done].
  destruct history as [|da history] using rev_ind.
  { by inversion Hin. }
  subst st. rewrite run_app in Hin |- *. simpl in Hin |- *.
  pose proof (tick_punctual da (Client.run history Client.init).1) as Hp.
  destruct (Client.tick da (Client.run history Client.init).1) as [st1 e1].
  simpl in *. unfold Timers.punctual in Hp. rewrite Forall_forall in Hp.
  by apply Hp.
Qed.

Lemma transient_display_has_a_clearing_timer_witness :
  let st := (Client.run [(0, Client.RecvUserTyping "Alice");
                         (1500, Client.RecvUserTyping "Bob")]
                        Client.init).1 in
  ∃ t, t ∈ Client.timers st
       ∧ Client.cb t = Client.ClearTyping
       ∧ Client.now st < Client.due t ≤ Client.now st + 2000.
Proof.
  apply (transient_display_has_a_clearing_timer
           [(0, Client.RecvUserTyping "Alice");
            (1500, Client.RecvUserTyping "Bob")] Page.TypingLine).
  reflexivity.
Defined.



(** X3. A clearing timer that comes due takes its display off the page even
    when a later event has set it since: the typing line put up by a second
    [userTyping] goes when the timer of the first one runs. *)
Theorem due_clearing_timer_clears_later_display
    (st : Client.State) (k : Page.Transient) (d : nat) (t : Client.Timer) :
  t ∈ Client.timers st →
  Client.cb t = Page.clearer k →
  Client.due t ≤ Client.now st + d →
  Page.shown k (Client.view (Client.advance d st).1) = false.
Proof.
  intros Hin Hcb Hdue. apply advance_clears, Exists_exists. exists t.
  split; [done|]. split; [|done]. rewrite Hcb. by destruct k.
Qed.

Lemma due_clearing_timer_clears_later_display_witness :
  let st := (Client.run [(0, Client.RecvUserTyping "Alice");
                         (1500, Client.RecvUserTyping "Bob")]
                        Client.init).1 in
  Client.typing (Client.view st) = "Bob... is Typing"
  ∧ Page.shown Page.TypingLine (Client.view (Client.advance 500 st).1) = false.
Proof.
  split; [reflexivity|].
  apply (due_clearing_timer_clears_later_display _ Page.TypingLine 500
           (Client.mkTimer 1 2000 Client.ClearTyping)).
  - vm_compute. apply list_elem_of_In. simpl. tauto.
  - reflexivity.
  - vm_compute. lia.
Defined.

(** * The events a client sends, against the page it shows *)

Section wire.

Import Client Page Wire.

Lemma follow_app m e1 e2 :
  follow m (e1 ++ e2) = follow m e1 ≫= λ m', follow m' e2.
Proof.
  revert m. induction e1 as [|e e1 IH]; intros m; [done|]. simpl.
  destruct (observe m e) as [m'|]; [apply IH|done].
Qed.

Lemma follow_silent m effs :
  emitted effs = [] → follow m effs = Some m.
Proof.
  induction effs as [|e effs IH]; [done|]. simpl.
  destruct e; simpl; try done; apply IH.
Qed.

Lemma run_callback_session c st :
  joined (view (run_callback c st).1) = joined (view st)
  ∧ roomId (view (run_callback c st).1) = roomId (view st)
  ∧ userName (view (run_callback c st).1) = userName (view st)
  ∧ language (view (run_callback c st).1) = language (view st)
  ∧ code (view (run_callback c st).1) = code (view st)
  ∧ users (view (run_callback c st).1) = users (view st).
Proof. destruct c; simpl; try done. by destruct (editorRef st). Qed.

Lemma run_callbacks_session l st :
  joined (view (run_callbacks l st).1) = joined (view st)
  ∧ roomId (view (run_callbacks l st).1) = roomId (view st)
  ∧ userName (view (run_callbacks l st).1) = userName (view st)
  ∧ language (view (run_callbacks l st).1) = language (view st)
  ∧ code (view (run_callbacks l st).1) = code (view st)
  ∧ users (view (run_callbacks l st).1) = users (view st).
Proof.
  revert st. induction l as [|t l IH]; intros st; [done|]. simpl.
  pose proof (run_callback_session (cb t) st) as H.
  destruct (run_callback (cb t) st) as [st1 e1]. specialize (IH st1).
  destruct (run_callbacks l st1) as [st2 e2]. simpl in *.
  destruct H as (? & ? & ? & ? & ? & ?), IH as (? & ? & ? & ? & ? & ?).
  repeat split; congruence.
Qed.

Lemma advance_session d st :
  joined (view (advance d st).1) = joined (view st)
  ∧ roomId (view (advance d st).1) = roomId (view st)
  ∧ userName (view (advance d st).1) = userName (view st)
  ∧ language (view (advance d st).1) = language (view st)
  ∧ code (view (advance d st).1) = code (view st)
  ∧ users (view (advance d st).1) = users (view st).
Proof.
  unfold advance.
  match goal with |- context [run_callbacks ?l ?s] =>
    exact (run_callbacks_session l s) end.
Qed.

Lemma step_in_session a st m :
  in_session st m → offers (screen (view st)) a = true →
  ∃ m', follow m (step a st).2 = Some m' ∧ in_session (step a st).1 m'.
Proof.
  unfold in_session, screen. intros Hs Hoff.
  destruct st as [[j r n l c cs us ty sg] ed ref nw nx ts]. simpl in *.
  destruct j; simpl in *.
  - destruct (Hs eq_refl) as (-> & Hr & Hn).
    destruct a as [| | | | | |l'| | |c'| | | | | |res]; try discriminate Hoff;
      simpl; try (by eexists; split; [reflexivity|]).
    + simpl in Hoff. rewrite String.eqb_refl, Hoff. simpl. by eexists.
    + destruct ed; simpl; by eexists.
    + rewrite !String.eqb_refl. simpl.
      destruct ref as [id|]; [destruct (id =? 0)|]; simpl; by eexists.
    + destruct res as [data|]; simpl; [|by eexists].
      destruct (get_prop data "suggestion") as [s|]; simpl; [|by eexists].
      destruct (truthy s); simpl; by eexists.
  - destruct a as [| | | | | |l'| | |c'| | | | | |res]; try discriminate Hoff;
      simpl; try (by eexists; split; [reflexivity|]).
    + unfold joinRoom. simpl.
      destruct (is_empty_string r) eqn:Hr, (is_empty_string n) eqn:Hn; simpl;
        try (by eexists; split; [reflexivity|]).
      rewrite Hr, Hn. simpl. by eexists.
    + destruct res as [data|]; simpl; [|by eexists].
      destruct (get_prop data "suggestion") as [s|]; simpl; [|by eexists].
      destruct (truthy s); simpl; by eexists.
Qed.

Lemma tick_in_session da st m :
  in_session st m →
  offers (screen (view (advance da.1 st).1)) da.2 = true →
  ∃ m', follow m (tick da st).2 = Some m' ∧ in_session (tick da st).1 m'.
Proof.
  intros Hs Hoff. unfold tick.
  pose proof (advance_emits_nothing da.1 st) as Hquiet.
  destruct (advance_session da.1 st) as (Hj & Hr & Hn & _).
  destruct (advance da.1 st) as [st0 e0]. simpl in *.
  assert (in_session st0 m) as Hs0.
  { unfold in_session in *. by rewrite Hj, Hr, Hn. }
  destruct (step_in_session da.2 st0 m Hs0 Hoff) as (m' & Hf & Hs').
  destruct (step da.2 st0) as [st1 e1]. simpl in *.
  exists m'. split; [|done].
  by rewrite follow_app, (follow_silent _ _ Hquiet).
Qed.

Lemma run_in_session tr st m :
  in_session st m → admissible tr st = true →
  ∃ m', follow m (run tr st).2 = Some m' ∧ in_session (run tr st).1 m'.
Proof.
  revert st m. induction tr as [|da tr IH]; intros st m Hs Hadm.
  { by exists m. }
  simpl in Hadm. apply andb_true_iff in Hadm as [Hoff Hadm]. simpl.
  destruct (tick_in_session da st m Hs Hoff) as (m1 & Hf1 & Hs1).
  destruct (tick da st) as [st1 e1]. simpl in *.
  destruct (IH st1 m1 Hs1 Hadm) as (m2 & Hf2 & Hs2).
  destruct (run tr st1) as [st2 e2]. simpl in *.
  exists m2. split; [|done]. by rewrite follow_app, Hf1.
Qed.

End wire.

(** X4. Along any run of the page from its initial state, the socket events
    fit together: every [join] carries a non-empty room id and user name;
    every [codeChange], [typing] and [languageChange] comes after a [join]
    and carries the room id of the last one (and [typing] its user name); a
    [languageChange] carries one of the selector's four options. While the
    editor page is up, the view holds what the last [join] said. *)
Theorem sent_events_fit_the_last_join (tr : list (nat * Client.Action)) :
  Page.admissible tr Client.init = true →
  ∃ m,
    Wire.follow None (Client.run tr Client.init).2 = Some m
    ∧ (Client.joined (Client.view (Client.run tr Client.init).1) = true →
       m = Some (Client.roomId (Client.view (Client.run tr Client.init).1),
                 Client.userName (Client.view (Client.run tr Client.init).1))
       ∧ is_empty_string
           (Client.roomId (Client.view (Client.run tr Client.init).1)) = false
       ∧ is_empty_string
           (Client.userName (Client.view (Client.run tr Client.init).1))
         = false).
Proof.
  intros Hadm. apply (run_in_session tr Client.init None); [|done].
  by intros H.
Qed.

Lemma sent_events_fit_the_last_join_witness :
  ∃ m,
    Wire.follow None
      (Client.run [(0, Client.TypeRoomId "r1"); (5, Client.TypeUserName "Alice");
                   (5, Client.ClickJoin);
                   (50, Client.EditorMounted (Client.mkEditor 0));
                   (100, Client.EditorChange "x");
                   (700, Client.SelectLanguage "python");
                   (10, Client.ClickLeave); (10, Client.ClickJoin)]
                  Client.init).2 = Some m.
Proof.
  destruct (sent_events_fit_the_last_join
              [(0, Client.TypeRoomId "r1"); (5, Client.TypeUserName "Alice");
               (5, Client.ClickJoin);
               (50, Client.EditorMounted (Client.mkEditor 0));
               (100, Client.EditorChange "x");
               (700, Client.SelectLanguage "python");
               (10, Client.ClickLeave); (10, Client.ClickJoin)])
    as (m & Hm & _).
  - vm_compute. reflexivity.
  - exists m. exact Hm.
Defined.

(** * Edits, as sent and as kept *)

Section edits.

Import Client Debounce Wire.

Lemma silent_sends_no_code effs :
  emitted effs = [] →
  sent_codes effs = []
  ∧ filter (λ e, is_event "codeChange" e = true) effs = []
  ∧ filter (λ e, is_event "typing" e = true) effs = [].
Proof.
  induction effs as [|e effs IH]; [done|]. simpl.
  destruct e; simpl; try done; intros H; destruct (IH H) as (? & ? & ?);
    rewrite ?filter_cons_False by done; done.
Qed.

Lemma step_sends_its_edit a st :
  let effs := (step a st).2 in
  sent_codes effs = edit_codes [(0, a)]
  ∧ length (filter (λ e, is_event "codeChange" e = true) effs)
    = length (edit_codes [(0, a)])
  ∧ length (filter (λ e, is_event "typing" e = true) effs)
    = length (edit_codes [(0, a)]).
Proof.
  destruct a as [| | | | | | | | | | | | | | |r]; simpl; try done.
  - unfold joinRoom. by case_match.
  - destruct r as [data|]; simpl; [|done].
    destruct (get_prop data "suggestion") as [s|]; simpl; [|done].
    by destruct (truthy s).
Qed.

Lemma edit_codes_cons da tr :
  edit_codes (da :: tr) = edit_codes [(0, da.2)] ++ edit_codes tr.
Proof. unfold edit_codes. simpl. by destruct da.2. Qed.

Lemma run_sends_its_edits tr st :
  let effs := (run tr st).2 in
  sent_codes effs = edit_codes tr
  ∧ length (filter (λ e, is_event "codeChange" e = true) effs)
    = length (edit_codes tr)
  ∧ length (filter (λ e, is_event "typing" e = true) effs)
    = length (edit_codes tr).
Proof.
  revert st. induction tr as [|da tr IH]; intros st; [done|].
  cbn [run]. unfold tick.
  destruct (silent_sends_no_code _ (advance_emits_nothing da.1 st))
    as (Ha1 & Ha2 & Ha3).
  destruct (advance da.1 st) as [st0 e0]. cbn [fst snd] in *.
  destruct (step_sends_its_edit da.2 st0) as (Hs1 & Hs2 & Hs3).
  destruct (step da.2 st0) as [st1 e1]. cbn [fst snd] in *.
  destruct (IH st1) as (Hr1 & Hr2 & Hr3).
  destruct (run tr st1) as [st2 e2]. cbn [fst snd] in *.
  rewrite edit_codes_cons, length_app. repeat split.
  - unfold sent_codes in *. by rewrite !omap_app, Ha1, Hs1, Hr1.
  - by rewrite !filter_app, !length_app, Ha2, Hs2, Hr2.
  - by rewrite !filter_app, !length_app, Ha3, Hs3, Hr3.
Qed.

(** The cells written by events only. *)

Lemma step_writes a st :
  code (view (step a st).1) = last_code (code (view st)) [(0, a)]
  ∧ language (view (step a st).1) = last_language (language (view st)) [(0, a)]
  ∧ users (view (step a st).1) = last_users (users (view st)) [(0, a)].
Proof.
  destruct a as [| | | | | | | | |c| | | | | |r]; simpl; try done.
  - unfold joinRoom. by case_match.
  - by destruct (editorRef st).
  - by destruct (autocompleteTimerRef st) as [id|]; [destruct (id =? 0)|].
  - destruct r as [data|]; simpl; [|done].
    destruct (get_prop data "suggestion") as [s|]; simpl; [|done].
    by destruct (truthy s).
Qed.

Lemma run_writes tr st :
  code (view (run tr st).1) = last_code (code (view st)) tr
  ∧ language (view (run tr st).1) = last_language (language (view st)) tr
  ∧ users (view (run tr st).1) = last_users (users (view st)) tr.
Proof.
  revert st. induction tr as [|[d a] tr IH]; intros st; [done|].
  cbn [run]. unfold tick. cbn [fst snd].
  destruct (advance_session d st) as (_ & _ & _ & Hl & Hc & Hu).
  destruct (advance d st) as [st0 e0]. cbn [fst snd] in *.
  destruct (step_writes a st0) as (Hc1 & Hl1 & Hu1).
  destruct (step a st0) as [st1 e1]. cbn [fst snd] in *.
  destruct (IH st1) as (Hc2 & Hl2 & Hu2).
  destruct (run tr st1) as [st2 e2]. cbn [fst snd] in *.
  rewrite Hc2, Hl2, Hu2, Hc1, Hl1, Hu1, Hc, Hl, Hu. done.
Qed.

(** Requests against edits. *)

Lemma requests_at_most_timers st (l : list Timer) :
  length (l ≫= request_of st) ≤ length l.
Proof.
  induction l as [|t l IH]; [done|]. rewrite bind_cons, length_app. simpl.
  pose proof (request_of_at_most_one st t). lia.
Qed.

Lemma length_filter_split (T : nat) (l : list Timer) :
  length (filter (λ t, due t ≤ T) l) + length (filter (λ t, T < due t) l)
  = length l.
Proof.
  induction l as [|t l IH]; [done|]. rewrite !filter_cons.
  destruct (decide (due t ≤ T)), (decide (T < due t)); simpl; lia.
Qed.

Lemma requests_bounded_by_edits tr st :
  wf st →
  length (fetched (run tr st).2) + length (pending_autocomplete (run tr st).1)
  ≤ length (pending_autocomplete st) + length (edit_codes tr).
Proof.
  revert st. induction tr as [|da tr IH]; intros st Hwf; [simpl; lia|].
  cbn [run]. unfold tick.
  pose proof (pending_after_advance da.1 st Hwf) as Hp0.
  destruct (advance_spec da.1 st Hwf) as (Hwf0 & _ & _ & _ & _ & Hf0).
  pose proof (requests_at_most_timers st
                (filter (λ t, due t ≤ now st + da.1) (pending_autocomplete st)))
    as Hle.
  pose proof (length_filter_split (now st + da.1) (pending_autocomplete st))
    as Hsplit.
  destruct (advance da.1 st) as [st0 e0]. cbn [fst snd] in *.
  rewrite <- Hf0 in Hle. rewrite <- Hp0 in Hsplit.
  rewrite edit_codes_cons, length_app.
  assert (length (fetched (step da.2 st0).2)
          + length (pending_autocomplete (step da.2 st0).1)
          ≤ length (pending_autocomplete st0)
            + length (edit_codes [(0, da.2)])
          ∧ wf (step da.2 st0).1) as [Hstep Hwf1].
  { destruct (is_edit da.2) eqn:Ha.
    - destruct da.2; try discriminate Ha.
      change (step (EditorChange newCode) st0)
        with (handleCodeChange newCode st0).
      destruct (handleCodeChange_spec newCode st0 Hwf0)
        as (? & -> & _ & _ & _ & ->). simpl. split; [lia|done].
    - destruct (step_other_spec da.2 st0 Ha Hwf0) as (? & -> & _ & ->).
      simpl. split; [lia|done]. }
  destruct (step da.2 st0) as [st1 e1]. cbn [fst snd] in *.
  specialize (IH st1 Hwf1).
  destruct (run tr st1) as [st2 e2]. cbn [fst snd] in *.
  rewrite !fetched_app, !length_app. lia.
Qed.

End edits.

(** X5. The socket events of an edit are not debounced. Along any run, the
    [codeChange] events sent carry, in order, exactly the codes of the edits
    made, one per edit, and there are as many [typing] events as edits. *)
Theorem every_edit_is_sent_at_once
    (tr : list (nat * Client.Action)) (st : Client.State) :
  Wire.sent_codes (Client.run tr st).2 = Wire.edit_codes tr
  ∧ length (filter (λ e, Wire.is_event "codeChange" e = true)
              (Client.run tr st).2)
    = length (Wire.edit_codes tr)
  ∧ length (filter (λ e, Wire.is_event "typing" e = true)
              (Client.run tr st).2)
    = length (Wire.edit_codes tr).
Proof. apply run_sends_its_edits. Qed.

(** X6. The client never asks for more suggestions than there were edits:
    along any run from the initial state, the autocomplete requests sent
    plus the one still scheduled number at most the edits made. Without an
    edit, no request is sent at all. *)
Theorem requests_never_exceed_edits (tr : list (nat * Client.Action)) :
  length (Client.fetched (Client.run tr Client.init).2)
  + length (Client.pending_autocomplete (Client.run tr Client.init).1)
  ≤ length (Wire.edit_codes tr).
Proof.
  pose proof (requests_bounded_by_edits tr Client.init wf_init) as H.
  simpl in H. exact H.
Qed.

(** X7. Last writer wins, locally. After any run, the code the editor is
    given is that of the last edit, remote [codeUpdate] or leave (which
    restores the initial text), whichever came last; likewise the language
    (selection, remote [languageUpdate], leave); and the user list is the
    one of the last [userJoined], which a leave does not clear. Timers and
    all other events leave the three alone. *)
Theorem view_cells_follow_the_last_writer
    (tr : list (nat * Client.Action)) (st : Client.State) :
  Client.code (Client.view (Client.run tr st).1)
    = Wire.last_code (Client.code (Client.view st)) tr
  ∧ Client.language (Client.view (Client.run tr st).1)
    = Wire.last_language (Client.language (Client.view st)) tr
  ∧ Client.users (Client.view (Client.run tr st).1)
    = Wire.last_users (Client.users (Client.view st)) tr.
Proof. apply run_writes. Qed.

(** * Requests of edits that are not in a burst *)

Section requests.

Import Client Debounce Wire.

Local Arguments handleCodeChange : simpl never.
Local Arguments step : simpl never.

Lemma take_S_cons {A} n (x : A) l : take (S n) (x :: l) = x :: take n l.
Proof. done. Qed.

Lemma spaced_edits_send L editor edits :
  ∀ st c t,
    wf st → pending_autocomplete st = [t] →
    cb t = Autocomplete c L → due t = now st + 600 →
    editorRef st = Some editor → language (view st) = L →
    Forall (λ e, 600 ≤ e.1) edits →
    fetched (run (edit_trace edits) st).2
    = (λ c, autocomplete_body c (cursor editor) L)
        <$> take (length edits) (c :: edits.*2).
Proof.
  induction edits as [|[d c'] edits IH];
    intros st c t Hwf Hp Hcb Hdue Hed Hl Hsp; [done|].
  apply Forall_cons in Hsp as [Hd Hsp]. simpl in Hd.
  change (edit_trace ((d, c') :: edits))
    with ((d, EditorChange c') :: edit_trace edits).
  cbn [run length]. unfold tick. cbn [fst snd].
  pose proof (pending_after_advance d st Hwf) as Hp0.
  destruct (advance_spec d st Hwf) as (Hwf0 & Hn0 & He0 & _ & _ & Hf0).
  destruct (advance_session d st) as (_ & _ & _ & Hl0 & _).
  destruct (advance d st) as [st0 e0]. cbn [fst snd] in *.
  rewrite Hp in Hp0, Hf0.
  rewrite filter_cons_True, filter_nil in Hf0 by lia.
  rewrite filter_cons_False, filter_nil in Hp0 by lia.
  simpl in Hf0. rewrite app_nil_r in Hf0.
  unfold request_of in Hf0. rewrite Hcb, Hed in Hf0.
  rewrite (step_edit c' st0).
  destruct (handleCodeChange_spec c' st0 Hwf0)
    as (Hwf1 & Hp1 & Hn1 & He1 & Hl1 & Hf1).
  destruct (handleCodeChange c' st0) as [st1 e1]. cbn [fst snd] in *.
  assert (fetched (run (edit_trace edits) st1).2
          = (λ c, autocomplete_body c (cursor editor) L)
              <$> take (length edits) (c' :: edits.*2)) as IH'.
  { apply (IH st1 c' _ Hwf1 Hp1); simpl;
      [congruence|lia|congruence|congruence|done]. }
  destruct (run (edit_trace edits) st1) as [st2 e2]. cbn [fst snd] in *.
  rewrite !fetched_app, Hf0, Hf1, IH'. done.
Qed.

End requests.

(** X8. No request is lost to the debounce when edits are far enough apart:
    with the editor mounted, in a run of edits each coming at least 600 ms
    after the one before, every edit but the last has sent its own request
    by the end, in order, each with its own code (the last one's is still
    scheduled). *)
Theorem spaced_edits_each_send_a_request
    (history : list (nat * Client.Action)) (editor : Client.Editor)
    (d0 : nat) (c0 : string) (edits : list (nat * string)) :
  let st := (Client.run history Client.init).1 in
  Client.editorRef st = Some editor →
  Forall (λ e, 600 ≤ e.1) edits →
  let st1 := (Client.tick (d0, Client.EditorChange c0) st).1 in
  Client.fetched (Client.run (Wire.edit_trace edits) st1).2
  = (λ c, Client.autocomplete_body c (Client.cursor editor)
            (Client.language (Client.view st)))
      <$> take (length edits) (c0 :: edits.*2).
Proof.
  intros st Hed Hsp st1.
  assert (Debounce.wf st) as Hwf by apply wf_run, wf_init.
  unfold Client.tick in st1. cbn [fst snd] in st1.
  destruct (advance_spec d0 st Hwf) as (Hwf0 & _ & He0 & _).
  destruct (advance_session d0 st) as (_ & _ & _ & Hl0 & _).
  destruct (Client.advance d0 st) as [st0 e0]. cbn [fst snd] in *.
  change (Client.step (Client.EditorChange c0) st0)
    with (Client.handleCodeChange c0 st0) in st1.
  destruct (handleCodeChange_spec c0 st0 Hwf0)
    as (Hwf1 & Hp1 & Hn1 & He1 & Hl1 & _).
  destruct (Client.handleCodeChange c0 st0) as [st1' e1].
  cbn [fst snd] in *. subst st1.
  apply (spaced_edits_send _ _ _ _ _ _ Hwf1 Hp1); simpl;
    [congruence|lia|congruence|congruence|done].
Qed.

Lemma spaced_edits_each_send_a_request_witness :
  let st1 := (Client.run [(0, Client.EditorMounted (Client.mkEditor 2));
                          (10, Client.EditorChange "a")] Client.init).1 in
  Client.fetched
    (Client.run (Wire.edit_trace [(600, "ab"); (900, "abc")]) st1).2
  = [Client.autocomplete_body "a" 2 "javascript";
     Client.autocomplete_body "ab" 2 "javascript"].
Proof.
  apply (spaced_edits_each_send_a_request
           [(0, Client.EditorMounted (Client.mkEditor 2))]
           (Client.mkEditor 2) 10 "a" [(600, "ab"); (900, "abc")]).
  - reflexivity.
  - repeat constructor; simpl; lia.
Defined.

(** X9. A request carries the language of the moment of its edit, not of
    the moment it is sent: when the language is changed less than 600 ms
    after an edit, the view holds the new language, the edit's timer stays
    scheduled, and the request it sends still names the old one. *)
Theorem request_keeps_the_language_of_its_edit
    (history : list (nat * Client.Action)) (editor : Client.Editor)
    (d0 d : nat) (newCode newLanguage : string) :
  let st := (Client.run history Client.init).1 in
  Client.editorRef st = Some editor →
  d < 600 →
  let st1 := (Client.tick (d0, Client.EditorChange newCode) st).1 in
  let st2 := (Client.tick (d, Client.SelectLanguage newLanguage) st1).1 in
  Client.language (Client.view st2) = newLanguage
  ∧ Client.fetched (Client.advance (600 - d) st2).2
    = [Client.autocomplete_body newCode (Client.cursor editor)
         (Client.language (Client.view st))].
Proof.
  intros st Hed Hd st1 st2.
  assert (Debounce.wf st) as Hwf by apply wf_run, wf_init.
  unfold Client.tick in st1. cbn [fst snd] in st1.
  destruct (advance_spec d0 st Hwf) as (Hwf0 & _ & He0 & _).
  destruct (advance_session d0 st) as (_ & _ & _ & Hl0 & _).
  destruct (Client.advance d0 st) as [st0 e0]. cbn [fst snd] in *.
  change (Client.step (Client.EditorChange newCode) st0)
    with (Client.handleCodeChange newCode st0) in st1.
  destruct (handleCodeChange_spec newCode st0 Hwf0)
    as (Hwf1 & Hp1 & Hn1 & He1 & Hl1 & _).
  destruct (Client.handleCodeChange newCode st0) as [st1' e1].
  cbn [fst snd] in *. subst st1.
  unfold Client.tick in st2. cbn [fst snd] in st2.
  pose proof (pending_after_advance d st1' Hwf1) as Hp2.
  destruct (advance_spec d st1' Hwf1) as (Hwf2 & Hn2 & He2 & _).
  destruct (Client.advance d st1') as [st2' e2]. cbn [fst snd] in *.
  rewrite Hp1 in Hp2. rewrite filter_cons_True, filter_nil in Hp2
    by (simpl; lia).
  destruct (step_other_spec (Client.SelectLanguage newLanguage) st2' eq_refl
              Hwf2) as (Hwf3 & Hp3 & Hn3 & _).
  assert (Client.editorRef
            (Client.step (Client.SelectLanguage newLanguage) st2').1
          = Client.editorRef st2') as He3 by done.
  assert (Client.language
            (Client.view
               (Client.step (Client.SelectLanguage newLanguage) st2').1)
          = newLanguage) as Hl3 by done.
  destruct (Client.step (Client.SelectLanguage newLanguage) st2')
    as [st3 e3]. cbn [fst snd] in *. subst st2.
  split; [done|].
  destruct (advance_spec (600 - d) st3 Hwf3) as (_ & _ & _ & _ & _ & Hf).
  rewrite Hf, Hp3, Hp2, filter_cons_True by (simpl; lia).
  rewrite filter_nil. unfold Debounce.request_of. simpl.
  rewrite He3, He2, He1, He0, Hed, Hl0. done.
Qed.

Lemma request_keeps_the_language_of_its_edit_witness :
  let st1 := (Client.run [(0, Client.EditorMounted (Client.mkEditor 2));
                          (10, Client.EditorChange "a")] Client.init).1 in
  let st2 := (Client.tick (200, Client.SelectLanguage "python") st1).1 in
  Client.language (Client.view st2) = "python"
  ∧ Client.fetched (Client.advance 400 st2).2
    = [Client.autocomplete_body "a" 2 "javascript"].
Proof.
  apply (request_keeps_the_language_of_its_edit
           [(0, Client.EditorMounted (Client.mkEditor 2))]
           (Client.mkEditor 2) 10 200 "a" "python").
  - reflexivity.
  - lia.
Defined.

(** X10. How a settled autocomplete request is taken. An error is logged
    exactly when the request failed or the body is [null] (or not there);
    any other body without a usable [suggestion] is passed over in silence.
    The state changes only when a truthy [suggestion] arrives: it is stored
    as it is and a timer is set to clear it 5000 ms later. In no case is
    anything emitted or requested, and no cell but [suggestion] is
    touched. *)
Theorem settled_request_logs_or_stores
    (r : Client.FetchResult) (st : Client.State) :
  let st' := (Client.fetchAutocomplete_resume r st).1 in
  let effs := (Client.fetchAutocomplete_resume r st).2 in
  (Client.ConsoleError ∈ effs ↔
   r = Client.Rejected ∨ r = Client.Resolved JNull
   ∨ r = Client.Resolved JUndefined)
  ∧ (Client.ConsoleError ∈ effs → st' = st)
  ∧ (st' ≠ st →
     ∃ data s, r = Client.Resolved data
               ∧ get_prop data "suggestion" = Some s ∧ truthy s = true
               ∧ Client.suggestion (Client.view st') = s
               ∧ Client.timers st'
                 = Client.timers st
                   ++ [Client.mkTimer (Client.next_timer st)
                         (Client.now st + 5000) Client.ClearSuggestion])
  ∧ Client.emitted effs = [] ∧ Client.fetched effs = []
  ∧ Client.setSuggestion (Client.suggestion (Client.view st))
      (Client.view st') = Client.view st.
Proof.
  intros st' effs. subst st' effs. unfold Client.fetchAutocomplete_resume.
  destruct r as [data|].
  2: { simpl. split.
       { split; [by left|]. intros _. by apply list_elem_of_singleton. }
       split; [done|]. split; [done|]. by destruct st as [[] ? ? ? ? ?]. }
  destruct (get_prop data "suggestion") as [s|] eqn:Hg.
  - assert (data ≠ JNull ∧ data ≠ JUndefined) as [Hnull Hundef]
      by (by destruct data).
    assert (¬ (Client.Resolved data = Client.Rejected
               ∨ Client.Resolved data = Client.Resolved JNull
               ∨ Client.Resolved data = Client.Resolved JUndefined))
      as Hnot by (intros [?|[?|?]]; by simplify_eq).
    destruct (truthy s) eqn:Ht; simpl.
    + split; [split; [by inversion 1|done]|]. split; [by inversion 1|].
      split; [intros _; by exists data, s|].
      by destruct st as [[] ? ? ? ? ?].
    + split; [split; [by inversion 1|done]|]. split; [by inversion 1|].
      split; [done|]. by destruct st as [[] ? ? ? ? ?].
  - assert (data = JNull ∨ data = JUndefined) as Hdata
      by (destruct data; simpl in Hg; auto; discriminate).
    simpl. split.
    { split; [intros _; destruct Hdata as [->| ->]; auto|].
      intros _. by apply list_elem_of_singleton. }
    split; [done|]. split; [done|]. by destruct st as [[] ? ? ? ? ?].
Qed.

(** * Names as shown *)

Lemma substring_0_splits (n : nat) (s : string) :
  ∃ rest, s = String.substring 0 n s +:+ rest
          ∧ String.length (String.substring 0 n s) = n `min` String.length s.
Proof.
  revert s. induction n as [|n IH]; intros s.
  - exists s. by destruct s.
  - destruct s as [|a s]; [by exists EmptyString|].
    destruct (IH s) as (rest & Hs & Hlen). exists rest. simpl.
    split; [|by rewrite Hlen].
    change (String a s = String a (String.substring 0 n s +:+ rest)).
    by f_equal.
Qed.

(** X11. Names are shown cut, never altered: each entry of the user list is
    the first eight characters of the corresponding name (the whole name
    when it has at most eight) followed by three dots, one entry per name
    and in order, so at most eleven characters long; and the typing line is
    made of the typing user's name in the same way. *)
Theorem names_are_shown_cut_to_eight (v : Client.View) (user : string)
    (st : Client.State) :
  Forall2 (λ name item,
             ∃ head rest,
               name = head +:+ rest
               ∧ item = head +:+ "..."
               ∧ String.length head = 8 `min` String.length name)
          (Client.users v) (Client.render_users v)
  ∧ ∃ head rest,
      user = head +:+ rest
      ∧ Client.typing (Client.view (Client.on_userTyping user st).1)
        = head +:+ "... is Typing"
      ∧ String.length head = 8 `min` String.length user.
Proof.
  split.
  - unfold Client.render_users. induction (Client.users v) as [|name l IH];
      constructor; [|done].
    destruct (substring_0_splits 8 name) as (rest & Hs & Hlen).
    by exists (slice_0_8 name), rest.
  - destruct (substring_0_splits 8 user) as (rest & Hs & Hlen).
    by exists (slice_0_8 user), rest.
Qed.

(** X12. Only an edit, or its own coming due, takes a scheduled autocomplete
    request away: no other event (leaving the room, choosing a language,
    copying the id, anything the socket delivers, a settled request) cancels
    or adds one, and none of them sends a request. In particular a request
    scheduled by the last edit before a leave stays scheduled. *)
Theorem only_edits_touch_the_scheduled_request
    (history : list (nat * Client.Action)) (a : Client.Action) :
  Debounce.is_edit a = false →
  let st := (Client.run history Client.init).1 in
  Client.pending_autocomplete (Client.step a st).1
    = Client.pending_autocomplete st
  ∧ Client.fetched (Client.step a st).2 = [].
Proof.
  intros Ha st.
  assert (Debounce.wf st) as Hwf by apply wf_run, wf_init.
  by destruct (step_other_spec a st Ha Hwf) as (_ & ? & _ & ?).
Qed.

Lemma only_edits_touch_the_scheduled_request_witness :
  let st := (Client.run [(0, Client.EditorChange "a")] Client.init).1 in
  Client.pending_autocomplete (Client.step Client.ClickLeave st).1
    = [Client.mkTimer 1 600 (Client.Autocomplete "a" "javascript")]
  ∧ Client.fetched (Client.step Client.ClickLeave st).2 = [].
Proof.
  apply (only_edits_touch_the_scheduled_request
           [(0, Client.EditorChange "a")] Client.ClickLeave).
  reflexivity.
Defined.
